(** * tslist: a linked list with per-element locks, lazy marks and eager removal

    Shallow embedding of [tslist.go] (package [tslist]) and the properties of
    its sequential behaviour.

    Memory model.  Every [*Element] the package hands out was allocated by
    [Append]; the store keeps the allocated elements in allocation order and a
    handle is the position of its element.  A nil pointer is [None].  The
    [List] struct itself is the [lst] component of the store: the back pointer
    [Element.l] of every element created by [Append] on that list points to
    it, so it is not stored.

    Control model.  Executions are single threaded.  Every mutex is free when
    a method is entered and every acquisition is released by a deferred
    unlock when the method returns, hence an acquisition sequence blocks
    exactly when it asks twice for the same exclusive lock; this is the only
    part of the locking that is visible sequentially and it is kept
    ([acquire]).  Loops run on a budget; running out of it is a separate
    outcome, and the theorems show that enough budget always exists. *)

From Stdlib Require Import ZArith Lia.
From stdpp Require Import base option list.

Module tslist.

(** ** Outcomes and the state-and-error monad *)

Inductive res (A : Type) : Type :=
| Ok (a : A)
| Panic       (* nil pointer dereference *)
| Deadlock    (* the same sync.RWMutex locked twice *)
| OutOfFuel.  (* loop budget of the model exhausted *)

Arguments Ok {A} a.
Arguments Panic {A}.
Arguments Deadlock {A}.
Arguments OutOfFuel {A}.

(** Go's [int] on a 64-bit platform: two's complement, silent wrap-around. *)
Definition wrap_int (z : Z) : Z := ((z + 2 ^ 63) mod 2 ^ 64 - 2 ^ 63)%Z.

Section WithValue.

(** The payload type, [interface{}] in the source. *)
Context {V : Type}.

(** ** Data model *)

(** [type Element struct]; the lock [m] and the owner [l] are discussed above. *)
Record Element : Type := mkElement {
  value   : V;            (* Payload *)
  remove  : bool;         (* Tag to mark element for removal *)
  removed : bool;         (* Prevents double-removal *)
  next    : option nat;   (* Next item in list *)
  prev    : option nat    (* Previous item in list *)
}.

(** [type List struct]. *)
Record List : Type := mkList {
  head : option nat;      (* First element in list *)
  tail : option nat;      (* Last element in list *)
  size : Z                (* Number of elements in list *)
}.

Record Store : Type := mkStore {
  lst   : List;
  elems : list Element
}.

Definition set_remove (b : bool) (x : Element) : Element :=
  mkElement (value x) b (removed x) (next x) (prev x).
Definition set_removed (b : bool) (x : Element) : Element :=
  mkElement (value x) (remove x) b (next x) (prev x).
Definition set_next (n : option nat) (x : Element) : Element :=
  mkElement (value x) (remove x) (removed x) n (prev x).
Definition set_prev (p : option nat) (x : Element) : Element :=
  mkElement (value x) (remove x) (removed x) (next x) p.

Definition set_head (h : option nat) (l : List) : List :=
  mkList h (tail l) (size l).
Definition set_tail (t : option nat) (l : List) : List :=
  mkList (head l) t (size l).
Definition set_size (n : Z) (l : List) : List :=
  mkList (head l) (tail l) n.

(** ** Programs *)

Definition M (A : Type) : Type := Store -> res (A * Store).

Definition ret {A} (a : A) : M A := fun s => Ok (a, s).

Definition bind {A B} (c : M A) (k : A -> M B) : M B :=
  fun s =>
    match c s with
    | Ok (a, s') => k a s'
    | Panic => Panic
    | Deadlock => Deadlock
    | OutOfFuel => OutOfFuel
    end.

Definition panic {A} : M A := fun _ => Panic.
Definition out_of_fuel {A} : M A := fun _ => OutOfFuel.

Local Notation "x <- c ;; k" := (bind c (fun x => k))
  (at level 20, c at level 99, k at level 200, only parsing).
Local Notation "c ;;; k" := (bind c (fun _ => k))
  (at level 100, k at level 200, right associativity, only parsing).

(** Read the element behind a handle. *)
Definition load (e : nat) : M Element :=
  fun s => match elems s !! e with
           | Some x => Ok (x, s)
           | None => Panic
           end.

(** Assign to fields of the element behind a handle. *)
Definition store (e : nat) (f : Element -> Element) : M unit :=
  fun s => match elems s !! e with
           | Some x => Ok (tt, mkStore (lst s) (<[e := f x]> (elems s)))
           | None => Panic
           end.

(** [&Element{...}]: a fresh element, placed after all earlier ones. *)
Definition alloc (x : Element) : M nat :=
  fun s => Ok (length (elems s), mkStore (lst s) (elems s ++ [x])).

Definition get_list : M List := fun s => Ok (lst s, s).

Definition upd_list (f : List -> List) : M unit :=
  fun s => Ok (tt, mkStore (f (lst s)) (elems s)).

(** Exclusive locks taken one after the other and held to the end of the
    method. *)
Definition acquire (hs : list nat) : M unit :=
  fun s => if bool_decide (NoDup hs) then Ok (tt, s) else Deadlock.

(** [func New() *List] *)
Definition New : Store := mkStore (mkList None None 0%Z) [].

(** [func (l *List) Len() int] *)
Definition Len : M Z := l <- get_list ;; ret (size l).

(** [func (l *List) Head() *Element] *)
Definition Head : M (option nat) := l <- get_list ;; ret (head l).

(** [func (l *List) Append(v interface{}) *Element] *)
Definition Append (v : V) : M nat :=
  e <- alloc (mkElement v false false None None) ;;
  l <- get_list ;;
  match head l with
  | None =>
      upd_list (set_head (Some e)) ;;;
      upd_list (set_tail (Some e)) ;;;
      ret e
  | Some _ =>
      match tail l with
      | None => panic                            (* l.tail.m.Lock() *)
      | Some t =>
          store t (set_next (Some e)) ;;;        (* l.tail.next = e *)
          store e (set_prev (Some t)) ;;;        (* e.prev = l.tail *)
          upd_list (set_tail (Some e)) ;;;       (* l.tail = e *)
          upd_list (fun l => set_size (wrap_int (size l + 1)) l) ;;;  (* l.size++ *)
          ret e
      end
  end.

(** [func (l *List) PushBack(v interface{}) *Element] *)
Definition PushBack (v : V) : M nat := Append v.

(** [func (e *Element) Value() interface{}] *)
Definition Value (e : nat) : M V := x <- load e ;; ret (value x).

(** [func (e *Element) ToRemove() bool] *)
Definition ToRemove (e : nat) : M bool := x <- load e ;; ret (remove x).

(** The loop of [Next]: advance while the candidate is marked. *)
Fixpoint skip_marked (fuel : nat) (nx : option nat) : M (option nat) :=
  match nx with
  | None => ret None
  | Some n =>
      r <- ToRemove n ;;
      if r then
        match fuel with
        | O => out_of_fuel
        | S fuel' => x <- load n ;; skip_marked fuel' (next x)
        end
      else ret (Some n)
  end.

(** [func (e *Element) Next() *Element] *)
Definition Next (fuel : nat) (e : nat) : M (option nat) :=
  x <- load e ;; skip_marked fuel (next x).

(** [func (e *Element) RemoveMark()] *)
Definition RemoveMark (e : nat) : M unit := store e (set_remove true).

(** The handles of the element locks [Remove] takes, in the order it takes
    them: previous, this, next. *)
Definition remove_locks (e : nat) (x : Element) : list nat :=
  option_list (prev x) ++ [e] ++ option_list (next x).

(** [func (e *Element) Remove()] *)
Definition Remove (e : nat) : M unit :=
  x <- load e ;;
  if removed x then ret tt else
  acquire (remove_locks e x) ;;;
  store e (set_removed true) ;;;                             (* e.removed = true *)
  upd_list (fun l => set_size (wrap_int (size l - 1)) l) ;;; (* e.l.size-- *)
  x <- load e ;;
  match prev x, next x with
  | None, None =>
      upd_list (set_head None) ;;;
      upd_list (set_tail None)
  | None, Some n =>
      upd_list (set_head (Some n)) ;;;           (* e.l.head = e.next *)
      store n (set_prev None)                    (* e.next.prev = nil *)
  | Some p, None =>
      upd_list (set_tail (Some p)) ;;;           (* e.l.tail = e.prev *)
      store p (set_next None)                    (* e.prev.next = nil *)
  | Some p, Some n =>
      store p (set_next (Some n)) ;;;            (* e.prev.next = e.next *)
      x' <- load e ;;
      match next x', prev x' with
      | Some n', p' => store n' (set_prev p')    (* e.next.prev = e.prev *)
      | None, _ => panic
      end
  end.

(** The inner loop of [RemoveMarked]: one pass from [e] to the end. *)
Fixpoint sweep (fuel : nat) (e : option nat) (done : bool) : M bool :=
  match e with
  | None => ret done
  | Some i =>
      match fuel with
      | O => out_of_fuel
      | S fuel' =>
          r <- ToRemove i ;;
          done' <- (if r then Remove i ;;; ret false else ret done) ;;
          nx <- Next fuel i ;;
          sweep fuel' nx done'
      end
  end.

(** The outer loop of [RemoveMarked],
    [for done := true; !done; done = true { ... }],
    entered with the current value of [done]. *)
Fixpoint sweeps (fuel : nat) (done : bool) : M unit :=
  if negb done then
    match fuel with
    | O => out_of_fuel
    | S fuel' =>
        l <- get_list ;;
        _ <- sweep fuel (head l) done ;;
        sweeps fuel' true
    end
  else ret tt.

(** [func (l *List) RemoveMarked()] *)
Definition RemoveMarked (fuel : nat) : M unit := sweeps fuel true.

(** A caller's full traversal: [for e := l.Head(); e != nil; e = e.Next()],
    collecting the handles it is given. *)
Fixpoint walk (fuel : nat) (e : option nat) : M (list nat) :=
  match e with
  | None => ret []
  | Some i =>
      match fuel with
      | O => out_of_fuel
      | S fuel' =>
          nx <- Next fuel i ;;
          rest <- walk fuel' nx ;;
          ret (i :: rest)
      end
  end.

Definition traverse (fuel : nat) : M (list nat) :=
  h <- Head ;; walk fuel h.

(** [Append] called once for every value of a list, first to last. *)
Fixpoint appends (vs : list V) : M unit :=
  match vs with
  | [] => ret tt
  | v :: vs' => Append v ;;; appends vs'
  end.

(** ** Views of a store *)

Definition nxt (s : Store) (i : nat) : option nat :=
  match elems s !! i with Some x => next x | None => None end.

Definition prv (s : Store) (i : nat) : option nat :=
  match elems s !! i with Some x => prev x | None => None end.

(** Allocated and not eagerly removed. *)
Definition alive (s : Store) (i : nat) : bool :=
  match elems s !! i with Some x => negb (removed x) | None => false end.

(** Lazily marked. *)
Definition marked (s : Store) (i : nat) : bool :=
  match elems s !! i with Some x => remove x | None => false end.

(** The elements of the list: the handles [Append] returned that have not
    been eagerly removed, in append order. *)
Definition live_handles (s : Store) : list nat :=
  filter (fun i => alive s i = true) (seq 0 (length (elems s))).

(** ** The states of a list *)

(** The mutating operations of the package. *)
Inductive op : Type :=
| OpAppend (v : V)
| OpRemove (e : nat)
| OpRemoveMark (e : nat)
| OpRemoveMarked (fuel : nat).

Definition exec (o : op) : M unit :=
  match o with
  | OpAppend v => Append v ;;; ret tt
  | OpRemove e => Remove e
  | OpRemoveMark e => RemoveMark e
  | OpRemoveMarked fuel => RemoveMarked fuel
  end.

(** The handle of a call, if it has one, is one [Append] returned. *)
Definition valid_op (s : Store) (o : op) : Prop :=
  match o with
  | OpAppend _ => True
  | OpRemove e => e < length (elems s)
  | OpRemoveMark e => e < length (elems s)
  | OpRemoveMarked _ => True
  end.

(** A program: a sequence of calls, run in order. *)
Fixpoint run (os : list op) : M unit :=
  match os with
  | [] => ret tt
  | o :: os' => exec o ;;; run os'
  end.

(** The store a program leaves when it is run on a new list. *)
Definition state_after (os : list op) : Store :=
  match run os New with
  | Ok (_, s) => s
  | _ => New
  end.

(** The stores a program can produce from [New()] with calls that return. *)
Inductive reachable : Store -> Prop :=
| reach_New : reachable New
| reach_step s o s' :
    reachable s -> exec o s = Ok (tt, s') -> reachable s'.

(** The structural invariant of reachable stores.  Links follow allocation
    order; the elements that are not removed form one doubly linked chain
    from [head] to [tail]. *)
Record wf (s : Store) : Prop := mkWf {
  wf_nxt_lt : forall i j, nxt s i = Some j -> i < j < length (elems s);
  wf_prv_lt : forall i j, prv s i = Some j -> j < i;
  wf_nxt_alive : forall i j, alive s i = true -> nxt s i = Some j ->
                   alive s j = true /\ prv s j = Some i;
  wf_prv_alive : forall i j, alive s i = true -> prv s i = Some j ->
                   alive s j = true /\ nxt s j = Some i;
  wf_head : forall i, alive s i = true ->
              (prv s i = None <-> head (lst s) = Some i);
  wf_tail : forall i, alive s i = true ->
              (nxt s i = None <-> tail (lst s) = Some i);
  wf_head_alive : forall i, head (lst s) = Some i -> alive s i = true;
  wf_tail_alive : forall i, tail (lst s) = Some i -> alive s i = true;
  wf_head_tail : head (lst s) = None <-> tail (lst s) = None
}.

(** The invariant of the data model: head absent iff tail absent. *)
Definition head_tail_inv (s : Store) : Prop :=
  head (lst s) = None <-> tail (lst s) = None.

(** What [Remove] does to a store in which the element is still linked, in
    terms of the views: the element leaves the chain, its neighbours are
    joined, and the list's ends follow. *)
Record unlinked (e : nat) (s s' : Store) : Prop := mkUnlinked {
  ul_length : length (elems s') = length (elems s);
  ul_head : head (lst s') =
            match prv s e with None => nxt s e | Some _ => head (lst s) end;
  ul_tail : tail (lst s') =
            match nxt s e with None => prv s e | Some _ => tail (lst s) end;
  ul_size : size (lst s') = wrap_int (size (lst s) - 1);
  ul_nxt : forall i, nxt s' i =
             if decide (Some i = prv s e) then nxt s e else nxt s i;
  ul_prv : forall i, prv s' i =
             if decide (Some i = nxt s e) then prv s e else prv s i;
  ul_alive : forall i, alive s' i =
               if decide (i = e) then false else alive s i;
  ul_marked : forall i, marked s' i = marked s i
}.

(** What [Append] does, in terms of the views. *)
Record appended (s s' : Store) : Prop := mkAppended {
  ap_length : length (elems s') = S (length (elems s));
  ap_head : head (lst s') =
            match head (lst s) with
            | None => Some (length (elems s))
            | Some h => Some h
            end;
  ap_tail : tail (lst s') = Some (length (elems s));
  ap_size : size (lst s') =
            match head (lst s) with
            | None => size (lst s)
            | Some _ => wrap_int (size (lst s) + 1)
            end;
  ap_nxt : forall i, nxt s' i =
             if decide (Some i = tail (lst s)) then Some (length (elems s))
             else nxt s i;
  ap_prv : forall i, prv s' i =
             if decide (i = length (elems s)) then tail (lst s) else prv s i;
  ap_alive : forall i, alive s' i =
               if decide (i = length (elems s)) then true else alive s i;
  ap_marked : forall i, marked s' i = marked s i
}.

(** ** Relations between the store before and after a call *)

(** Nothing is taken back: every handle stays valid, its payload is the
    same, and a mark or a removal that was set is still set. *)
Definition kept (s s' : Store) : Prop :=
  forall i x, elems s !! i = Some x ->
    exists x', elems s' !! i = Some x' /\ value x' = value x /\
      (remove x = true -> remove x' = true) /\
      (removed x = true -> removed x' = true).

(** Every run of [c] that returns relates the store before to the store
    after by [R]. *)
Definition preserves {A} (R : Store -> Store -> Prop) (c : M A) : Prop :=
  forall s a s', c s = Ok (a, s') -> R s s'.

(** The elements of the list from handle [k] on. *)
Definition live_from (s : Store) (k : nat) : list nat :=
  filter (fun i => alive s i = true) (seq k (length (elems s) - k)).


(** What the loop of [Next] has to return from a candidate: nil for nil, the
    candidate itself when it carries no lazy mark, and otherwise what it has
    to return from the candidate's next. *)
Inductive first_unmarked (s : Store) : option nat -> option nat -> Prop :=
| fu_nil : first_unmarked s None None
| fu_here n : marked s n = false -> first_unmarked s (Some n) (Some n)
| fu_skip n r :
    marked s n = true -> first_unmarked s (nxt s n) r ->
    first_unmarked s (Some n) r.

(** ** Basic facts about the views *)

Lemma alive_lookup s i :
  alive s i = true <-> exists x, elems s !! i = Some x /\ removed x = false.
Proof.
  unfold alive. destruct (elems s !! i) as [x|]; split.
  - intros H. exists x. split; [done|]. by destruct (removed x).
  - intros (y & [= <-] & ->). done.
  - done.
  - intros (y & ? & _). done.
Qed.

Lemma alive_lt s i : alive s i = true -> i < length (elems s).
Proof. intros (x & Hx & _)%alive_lookup. by eapply lookup_lt_Some. Qed.

Lemma nxt_lookup s i x : elems s !! i = Some x -> nxt s i = next x.
Proof. unfold nxt. by intros ->. Qed.

Lemma prv_lookup s i x : elems s !! i = Some x -> prv s i = prev x.
Proof. unfold prv. by intros ->. Qed.

(** Views of a store after one element was overwritten. *)
Lemma nxt_insert (l : List) (es : list Element) k y i :
  k < length es ->
  nxt (mkStore l (<[k := y]> es)) i =
  if decide (i = k) then next y else nxt (mkStore l es) i.
Proof.
  intros Hk. unfold nxt; simpl. rewrite list_lookup_insert.
  destruct (decide (i = k)) as [->|Hne].
  - by rewrite decide_True.
  - rewrite decide_False; [done|]. intros [? _]. congruence.
Qed.

Lemma prv_insert (l : List) (es : list Element) k y i :
  k < length es ->
  prv (mkStore l (<[k := y]> es)) i =
  if decide (i = k) then prev y else prv (mkStore l es) i.
Proof.
  intros Hk. unfold prv; simpl. rewrite list_lookup_insert.
  destruct (decide (i = k)) as [->|Hne].
  - by rewrite decide_True.
  - rewrite decide_False; [done|]. intros [? _]. congruence.
Qed.

Lemma alive_insert (l : List) (es : list Element) k y i :
  k < length es ->
  alive (mkStore l (<[k := y]> es)) i =
  if decide (i = k) then negb (removed y) else alive (mkStore l es) i.
Proof.
  intros Hk. unfold alive; simpl. rewrite list_lookup_insert.
  destruct (decide (i = k)) as [->|Hne].
  - by rewrite decide_True.
  - rewrite decide_False; [done|]. intros [? _]. congruence.
Qed.

Lemma marked_insert (l : List) (es : list Element) k y i :
  k < length es ->
  marked (mkStore l (<[k := y]> es)) i =
  if decide (i = k) then remove y else marked (mkStore l es) i.
Proof.
  intros Hk. unfold marked; simpl. rewrite list_lookup_insert.
  destruct (decide (i = k)) as [->|Hne].
  - by rewrite decide_True.
  - rewrite decide_False; [done|]. intros [? _]. congruence.
Qed.

Lemma store_Ok e f s x :
  elems s !! e = Some x ->
  store e f s = Ok (tt, mkStore (lst s) (<[e := f x]> (elems s))).
Proof. unfold store. by intros ->. Qed.

Lemma load_Ok e s x : elems s !! e = Some x -> load e s = Ok (x, s).
Proof. unfold load. by intros ->. Qed.

Lemma acquire_Ok hs s : NoDup hs -> acquire hs s = Ok (tt, s).
Proof. intros H. unfold acquire. by rewrite bool_decide_eq_true_2. Qed.


(** ** What the operations compute *)

Lemma Remove_removed e s x :
  elems s !! e = Some x -> removed x = true -> Remove e s = Ok (tt, s).
Proof.
  intros Hx Hr. unfold Remove, bind. rewrite (load_Ok _ _ _ Hx), Hr. done.
Qed.

Lemma wf_neighbours s e :
  wf s ->
  NoDup (option_list (prv s e) ++ [e] ++ option_list (nxt s e)) /\
  (forall p, prv s e = Some p -> p < e) /\
  (forall n, nxt s e = Some n -> e < n < length (elems s)).
Proof.
  intros W. pose proof (wf_nxt_lt _ W e) as Hn. pose proof (wf_prv_lt _ W e) as Hp.
  split; [|by auto].
  destruct (prv s e) as [p|], (nxt s e) as [n|]; simpl;
    repeat (apply NoDup_cons; split); try apply NoDup_nil_2;
    rewrite ?elem_of_cons, ?elem_of_nil;
    try (specialize (Hp _ eq_refl)); try (specialize (Hn _ eq_refl)); lia.
Qed.

Ltac views :=
  rewrite ?nxt_insert, ?prv_insert, ?alive_insert, ?marked_insert
    by (rewrite ?length_insert, ?length_app; simpl; lia).

Local Ltac fin_remove :=
  match goal with
  | Hx : elems ?s !! ?e = Some ?x |- unlinked ?e ?s _ =>
      split; simpl;
      rewrite ?length_insert, ?(nxt_lookup _ _ _ Hx), ?(prv_lookup _ _ _ Hx);
      repeat match goal with E : _ x = _ |- _ => rewrite ?E; clear E end;
      try done; intros i; views;
      destruct s; simpl in *;
      repeat case_decide; simplify_eq; simpl; try done; try lia;
      unfold nxt, prv, alive, marked; simpl;
      repeat match goal with E : _ !! _ = _ |- _ => rewrite ?E; clear E end;
      try done
  end.

Lemma Remove_alive s e :
  wf s -> alive s e = true ->
  exists s', Remove e s = Ok (tt, s') /\ unlinked e s s'.
Proof.
  intros W (x & Hx & Hr)%alive_lookup.
  destruct (wf_neighbours s e W) as (Hnd & Hp & Hn).
  rewrite (nxt_lookup _ _ _ Hx), (prv_lookup _ _ _ Hx) in *.
  pose proof (lookup_lt_Some _ _ _ Hx) as He.
  unfold Remove, bind. rewrite (load_Ok _ _ _ Hx), Hr.
  unfold remove_locks. rewrite (acquire_Ok _ _ Hnd).
  rewrite (store_Ok _ _ _ _ Hx). unfold upd_list; simpl.
  unfold load at 1; simpl. rewrite list_lookup_insert_eq by done. simpl.
  set (es1 := <[e := set_removed true x]> (elems s)).
  assert (Hlen1 : length es1 = length (elems s)) by apply length_insert.
  destruct (prev x) as [p|] eqn:Ep, (next x) as [n|] eqn:En; simpl.
  - specialize (Hn _ eq_refl). specialize (Hp _ eq_refl).
    destruct (lookup_lt_is_Some_2 es1 p) as [y Hy]; [lia|].
    unfold store at 1, load; simpl. rewrite Hy; simpl.
    rewrite list_lookup_insert_ne by lia.
    subst es1. rewrite list_lookup_insert_eq by lia. simpl. rewrite En, Ep.
    destruct (lookup_lt_is_Some_2 (<[p:=set_next (Some n) y]> (<[e:=set_removed true x]> (elems s))) n) as [z Hz];
      [rewrite !length_insert; lia|].
    unfold store; simpl. rewrite Hz. eexists; split; [reflexivity|].
    rewrite list_lookup_insert_ne in Hy by lia.
    rewrite !list_lookup_insert_ne in Hz by lia.
    fin_remove.
  - specialize (Hp _ eq_refl).
    destruct (lookup_lt_is_Some_2 es1 p) as [y Hy]; [lia|].
    unfold store; simpl. rewrite Hy. eexists; split; [reflexivity|].
    subst es1. rewrite list_lookup_insert_ne in Hy by lia.
    fin_remove.
  - specialize (Hn _ eq_refl).
    destruct (lookup_lt_is_Some_2 es1 n) as [y Hy]; [lia|].
    unfold store; simpl. rewrite Hy. eexists; split; [reflexivity|].
    subst es1. rewrite list_lookup_insert_ne in Hy by lia.
    fin_remove.
  - eexists; split; [reflexivity|]. subst es1.
    fin_remove.
Qed.

Lemma lookup_snoc_new (es : list Element) (x : Element) :
  (es ++ [x]) !! length es = Some x.
Proof. rewrite lookup_app_r by lia. by rewrite Nat.sub_diag. Qed.

Lemma lookup_snoc (es : list Element) (x : Element) i :
  (es ++ [x]) !! i = if decide (i = length es) then Some x else es !! i.
Proof.
  destruct (decide (i = length es)) as [->|Hne].
  - apply lookup_snoc_new.
  - destruct (decide (i < length es)).
    + by rewrite lookup_app_l.
    + rewrite !lookup_ge_None_2; [done|lia|rewrite length_app; simpl; lia].
Qed.

Lemma nxt_snoc l es x i :
  nxt (mkStore l (es ++ [x])) i =
  if decide (i = length es) then next x else nxt (mkStore l es) i.
Proof. unfold nxt; simpl. rewrite lookup_snoc. by destruct (decide _). Qed.

Lemma prv_snoc l es x i :
  prv (mkStore l (es ++ [x])) i =
  if decide (i = length es) then prev x else prv (mkStore l es) i.
Proof. unfold prv; simpl. rewrite lookup_snoc. by destruct (decide _). Qed.

Lemma alive_snoc l es x i :
  alive (mkStore l (es ++ [x])) i =
  if decide (i = length es) then negb (removed x) else alive (mkStore l es) i.
Proof. unfold alive; simpl. rewrite lookup_snoc. by destruct (decide _). Qed.

Lemma marked_snoc l es x i :
  marked (mkStore l (es ++ [x])) i =
  if decide (i = length es) then remove x else marked (mkStore l es) i.
Proof. unfold marked; simpl. rewrite lookup_snoc. by destruct (decide _). Qed.

Local Ltac fin_append :=
  intros i; views; rewrite ?nxt_snoc, ?prv_snoc, ?alive_snoc, ?marked_snoc;
  match goal with W : wf ?s |- _ => clear W; destruct s end; simpl in *;
  repeat case_decide; simplify_eq; simpl; try done; try lia;
  unfold nxt, prv, alive, marked; simpl;
  repeat match goal with E : _ !! _ = _ |- _ => rewrite ?E; clear E end;
  rewrite ?lookup_ge_None_2 by lia;
  try done.

Lemma Append_wf s v :
  wf s ->
  exists s', Append v s = Ok (length (elems s), s') /\ appended s s'.
Proof.
  intros W. unfold Append, bind, alloc, get_list; simpl.
  destruct (head (lst s)) as [h|] eqn:Eh.
  - destruct (tail (lst s)) as [t|] eqn:Et.
    2:{ apply (wf_head_tail _ W) in Et. congruence. }
    pose proof (alive_lt _ _ (wf_tail_alive _ W _ Et)) as Ht.
    destruct (lookup_lt_is_Some_2 (elems s) t Ht) as [y Hy].
    unfold store at 1; simpl. rewrite lookup_app_l, Hy by done.
    unfold store at 1; simpl.
    rewrite list_lookup_insert_ne by lia. rewrite lookup_snoc_new.
    unfold upd_list, ret; simpl. eexists; split; [reflexivity|].
    split; simpl; rewrite ?length_insert, ?length_app, ?Eh, ?Et; simpl;
      try done; try lia; fin_append.
  - assert (Et : tail (lst s) = None) by (by apply (wf_head_tail _ W)).
    unfold upd_list, ret; simpl. eexists; split; [reflexivity|].
    split; simpl; rewrite ?length_insert, ?length_app, ?Eh, ?Et; simpl;
      try done; try lia; fin_append.
Qed.

(** ** The invariant is kept *)

Lemma wf_New : wf New.
Proof. split; unfold nxt, prv, alive; simpl; try done. Qed.

Lemma wf_unlinked s s' e :
  wf s -> alive s e = true -> unlinked e s s' -> wf s'.
Proof.
  intros W A [Hlen Hh Ht Hs Hn Hp Ha Hm].
  pose proof (wf_nxt_lt _ W e) as Enl.
  pose proof (wf_prv_lt _ W e) as Epl.
  pose proof (wf_nxt_alive _ W e) as Ena.
  pose proof (wf_prv_alive _ W e) as Epa.
  split.
  - intros i j. rewrite Hn, Hlen. case_decide as Hd.
    + intros HN. specialize (Enl _ HN). specialize (Epl i (eq_sym Hd)). lia.
    + apply (wf_nxt_lt _ W).
  - intros i j. rewrite Hp. case_decide as Hd.
    + intros HP. specialize (Enl i (eq_sym Hd)). specialize (Epl _ HP). lia.
    + apply (wf_prv_lt _ W).
  - intros i j. rewrite !Ha, Hn, Hp.
    destruct (decide (i = e)) as [|Hie]; [done|]. intros Ai.
    destruct (decide (Some i = prv s e)) as [Hd|Hd]; intros HN.
    + destruct (Ena _ A HN) as [Aj Pj]. specialize (Enl _ HN).
      rewrite decide_False by lia. rewrite decide_True by done. done.
    + destruct (wf_nxt_alive _ W _ _ Ai HN) as [Aj Pj].
      rewrite decide_False by congruence.
      split; [done|]. case_decide as Hd2; [|done].
      destruct (Ena _ A (eq_sym Hd2)) as [_ Pj']. congruence.
  - intros i j. rewrite !Ha, Hn, Hp.
    destruct (decide (i = e)) as [|Hie]; [done|]. intros Ai.
    destruct (decide (Some i = nxt s e)) as [Hd|Hd]; intros HP.
    + destruct (Epa _ A HP) as [Aj Nj]. specialize (Epl _ HP).
      rewrite decide_False by lia. rewrite decide_True by done. done.
    + destruct (wf_prv_alive _ W _ _ Ai HP) as [Aj Nj].
      rewrite decide_False by congruence.
      split; [done|]. case_decide as Hd2; [|done].
      destruct (Epa _ A (eq_sym Hd2)) as [_ Nj']. congruence.
  - intros i. rewrite Ha, Hp, Hh.
    destruct (decide (i = e)) as [|Hie]; [done|]. intros Ai.
    pose proof (wf_head _ W i Ai) as Hi. pose proof (wf_head _ W e A) as He.
    destruct (decide (Some i = nxt s e)) as [Hd|Hd].
    + destruct (Ena _ A (eq_sym Hd)) as [_ Pi].
      destruct (prv s e) as [p|] eqn:Ep; [|by rewrite Hd].
      split; [done|]. intros Hhd. apply Hi in Hhd. congruence.
    + destruct (prv s e) as [p|] eqn:Ep; [done|].
      split.
      * intros Pi. apply Hi in Pi. assert (head (lst s) = Some e) by (by apply He).
        congruence.
      * intros HN. congruence.
  - intros i. rewrite Ha, Hn, Ht.
    destruct (decide (i = e)) as [|Hie]; [done|]. intros Ai.
    pose proof (wf_tail _ W i Ai) as Hi. pose proof (wf_tail _ W e A) as He.
    destruct (decide (Some i = prv s e)) as [Hd|Hd].
    + destruct (Epa _ A (eq_sym Hd)) as [_ Ni].
      destruct (nxt s e) as [n|] eqn:En; [|by rewrite Hd].
      split; [done|]. intros Htl. apply Hi in Htl. congruence.
    + destruct (nxt s e) as [n|] eqn:En; [done|].
      split.
      * intros Ni. apply Hi in Ni. assert (tail (lst s) = Some e) by (by apply He).
        congruence.
      * intros HP. congruence.
  - intros i. rewrite Ha, Hh.
    pose proof (wf_head _ W e A) as He.
    destruct (prv s e) as [p|] eqn:Ep.
    + intros Hhd. pose proof (wf_head_alive _ W _ Hhd) as Ai.
      rewrite decide_False; [done|]. intros ->.
      assert (Some p = None) by (by apply He). done.
    + intros HN. destruct (Ena _ A HN) as [Ai _]. specialize (Enl _ HN).
      by rewrite decide_False by lia.
  - intros i. rewrite Ha, Ht.
    pose proof (wf_tail _ W e A) as He.
    destruct (nxt s e) as [n|] eqn:En.
    + intros Htl. pose proof (wf_tail_alive _ W _ Htl) as Ai.
      rewrite decide_False; [done|]. intros ->.
      assert (Some n = None) by (by apply He). done.
    + intros HP. destruct (Epa _ A HP) as [Ai _]. specialize (Epl _ HP).
      by rewrite decide_False by lia.
  - rewrite Hh, Ht.
    pose proof (wf_head _ W e A) as He. pose proof (wf_tail _ W e A) as Te.
    pose proof (wf_head_tail _ W) as HT.
    destruct (prv s e) as [p|] eqn:Ep, (nxt s e) as [n|] eqn:En; try done.
    + split; [|done]. intros Hhd. apply HT in Hhd.
      assert (tail (lst s) = Some e) by (by apply Te). congruence.
    + split; [done|]. intros Htl. apply HT in Htl.
      assert (head (lst s) = Some e) by (by apply He). congruence.
Qed.


Lemma wf_appended s s' : wf s -> appended s s' -> wf s'.
Proof.
  intros W [Hlen Hh Ht Hs Hn Hp Ha Hm].
  pose proof (wf_head_tail _ W) as HT.
  assert (Htl : forall t, tail (lst s) = Some t -> t < length (elems s)).
  { intros t Et. apply alive_lt. by apply (wf_tail_alive _ W). }
  assert (Hhl : forall h, head (lst s) = Some h -> h < length (elems s)).
  { intros h Eh. apply alive_lt. by apply (wf_head_alive _ W). }
  split.
  - intros i j. rewrite Hn, Hlen. case_decide as Hd.
    + intros [= <-]. specialize (Htl i (eq_sym Hd)). lia.
    + intros HN. apply (wf_nxt_lt _ W) in HN. lia.
  - intros i j. rewrite Hp. case_decide as Hd.
    + intros HP. specialize (Htl _ HP). lia.
    + apply (wf_prv_lt _ W).
  - intros i j. rewrite !Ha, Hn, Hp.
    destruct (decide (Some i = tail (lst s))) as [Hd|Hd].
    + intros _ [= <-]. by rewrite !decide_True.
    + intros Ai HN. pose proof (wf_nxt_lt _ W _ _ HN) as Hlt.
      rewrite decide_False in Ai by lia. rewrite !decide_False by lia.
      by apply (wf_nxt_alive _ W).
  - intros i j. rewrite !Ha, Hn, Hp.
    destruct (decide (i = length (elems s))) as [Hd|Hd].
    + intros _ HP. specialize (Htl _ HP).
      rewrite decide_False by lia. rewrite decide_True by done.
      split; [|by subst]. by apply (wf_tail_alive _ W).
    + intros Ai HP. destruct (wf_prv_alive _ W _ _ Ai HP) as [Aj Nj].
      pose proof (alive_lt _ _ Aj). rewrite decide_False by lia.
      split; [done|]. rewrite decide_False; [done|].
      intros Hd2. symmetry in Hd2. apply (wf_tail _ W _ Aj) in Hd2. congruence.
  - intros i. rewrite Ha, Hp, Hh.
    destruct (decide (i = length (elems s))) as [->|Hd].
    + intros _. destruct (head (lst s)) as [h|] eqn:Eh.
      * specialize (Hhl _ eq_refl). split.
        -- intros Et%HT. done.
        -- intros [= ->]. lia.
      * split; [done|]. intros _. by apply HT.
    + intros Ai. pose proof (wf_head _ W _ Ai) as Hi.
      destruct (head (lst s)) as [h|] eqn:Eh; [done|].
      split.
      * intros HP%Hi. done.
      * intros [= Heq]. by subst.
  - intros i. rewrite Ha, Hn, Ht.
    destruct (decide (i = length (elems s))) as [->|Hd].
    + intros _. rewrite decide_False.
      2:{ intros Hd. specialize (Htl _ (eq_sym Hd)). lia. }
      split; [done|]. intros _.
      destruct (nxt s (length (elems s))) as [j|] eqn:En; [|done].
      apply (wf_nxt_lt _ W) in En. lia.
    + intros Ai. pose proof (wf_tail _ W _ Ai) as Hi.
      destruct (decide (Some i = tail (lst s))) as [Hd2|Hd2].
      * split; [done|]. intros [= Heq]. by subst.
      * split.
        -- intros HN%Hi. congruence.
        -- intros [= Heq]. by subst.
  - intros i. rewrite Ha, Hh. destruct (head (lst s)) as [h|] eqn:Eh.
    + intros [= <-]. specialize (Hhl _ eq_refl).
      rewrite decide_False by lia. by apply (wf_head_alive _ W).
    + intros [= <-]. by rewrite decide_True.
  - intros i. rewrite Ha, Ht. intros [= <-]. by rewrite decide_True.
  - rewrite Hh, Ht. destruct (head (lst s)); split; done.
Qed.

(** [RemoveMark] in terms of the store. *)
Lemma RemoveMark_Ok e s x :
  elems s !! e = Some x ->
  RemoveMark e s = Ok (tt, mkStore (lst s) (<[e := set_remove true x]> (elems s))).
Proof. apply store_Ok. Qed.

Lemma RemoveMark_inv e s s' :
  RemoveMark e s = Ok (tt, s') ->
  exists x, elems s !! e = Some x /\
            s' = mkStore (lst s) (<[e := set_remove true x]> (elems s)).
Proof.
  unfold RemoveMark, store. destruct (elems s !! e) as [x|]; [|done].
  intros [= <-]. by exists x.
Qed.

Lemma RemoveMark_views e s s' :
  RemoveMark e s = Ok (tt, s') ->
  lst s' = lst s /\ length (elems s') = length (elems s) /\
  (forall i, nxt s' i = nxt s i) /\ (forall i, prv s' i = prv s i) /\
  (forall i, alive s' i = alive s i) /\
  (forall i, marked s' i = if decide (i = e) then true else marked s i).
Proof.
  intros (x & Hx & ->)%RemoveMark_inv.
  pose proof (lookup_lt_Some _ _ _ Hx) as He.
  simpl. rewrite length_insert. repeat split; intros i; views;
    destruct s as [l es]; simpl in *; case_decide; subst; try done;
    unfold nxt, prv, alive; simpl; by rewrite Hx.
Qed.

Lemma wf_RemoveMark e s s' : wf s -> RemoveMark e s = Ok (tt, s') -> wf s'.
Proof.
  intros W (Hl & Hlen & Hn & Hp & Ha & _)%RemoveMark_views.
  destruct W. split; intros *; rewrite ?Hl, ?Hlen, ?Hn, ?Hp, ?Ha; eauto.
Qed.

(** [RemoveMarked] never enters its loop. *)
Lemma RemoveMarked_inert fuel s : RemoveMarked fuel s = Ok (tt, s).
Proof. by destruct fuel. Qed.

Lemma Remove_inv e s s' :
  Remove e s = Ok (tt, s') ->
  exists x, elems s !! e = Some x /\ (removed x = true -> s' = s).
Proof.
  unfold Remove, bind, load. destruct (elems s !! e) as [x|]; [|done].
  intros H. exists x. split; [done|]. intros Hr. rewrite Hr in H.
  by injection H.
Qed.

Lemma wf_Remove e s s' : wf s -> Remove e s = Ok (tt, s') -> wf s'.
Proof.
  intros W H. destruct (alive s e) eqn:A.
  - destruct (Remove_alive _ _ W A) as (s1 & E & U).
    rewrite E in H. injection H as <-. by eapply wf_unlinked.
  - destruct (Remove_inv _ _ _ H) as (x & Hx & Hs).
    unfold alive in A. rewrite Hx in A.
    rewrite Hs; [done|]. by destruct (removed x).
Qed.

Lemma wf_exec o s s' : wf s -> exec o s = Ok (tt, s') -> wf s'.
Proof.
  intros W. destruct o as [v|e|e|fuel]; simpl.
  - unfold bind. destruct (Append_wf s v W) as (s1 & -> & Ap).
    intros [= <-]. by eapply wf_appended.
  - by apply wf_Remove.
  - by apply wf_RemoveMark.
  - rewrite RemoveMarked_inert. by intros [= <-].
Qed.

Lemma reachable_wf s : reachable s -> wf s.
Proof.
  induction 1 as [|s o s' _ IH E]; [apply wf_New|]. by eapply wf_exec.
Qed.


(** After [Remove] has returned, the element is flagged as removed. *)
Lemma Remove_sets_removed e s s' :
  Remove e s = Ok (tt, s') ->
  exists x, elems s' !! e = Some x /\ removed x = true.
Proof.
  unfold Remove, bind. unfold load at 1.
  destruct (elems s !! e) as [x|] eqn:Hx; [|done].
  destruct (removed x) eqn:Hr.
  { intros [= <-]. eauto. }
  unfold acquire, remove_locks. case_bool_decide as Hnd; [|done].
  pose proof (lookup_lt_Some _ _ _ Hx) as He.
  rewrite (store_Ok _ _ _ _ Hx). unfold upd_list; simpl.
  unfold load at 1; simpl. rewrite list_lookup_insert_eq by done. simpl.
  set (x1 := set_removed true x).
  assert (Hx1 : (<[e:=x1]> (elems s)) !! e = Some x1)
    by (by apply list_lookup_insert_eq).
  destruct (prev x) as [p|] eqn:Ep, (next x) as [n|] eqn:En; simpl in *.
  - apply NoDup_cons in Hnd as [Hp Hnd]. apply NoDup_cons in Hnd as [Hn _].
    rewrite !elem_of_cons, elem_of_nil in Hp. rewrite elem_of_cons, elem_of_nil in Hn.
    unfold store at 1; simpl.
    destruct (<[e:=x1]> (elems s) !! p) as [y|] eqn:Hy; [|done]. simpl.
    unfold load; simpl. rewrite list_lookup_insert_ne by naive_solver.
    rewrite Hx1. simpl. rewrite En, Ep. unfold store; simpl.
    destruct (_ !! n) as [z|] eqn:Hz; [|done]. intros [= <-]. simpl.
    exists x1. rewrite !list_lookup_insert_ne by naive_solver. done.
  - apply NoDup_cons in Hnd as [Hp _].
    rewrite !elem_of_cons, elem_of_nil in Hp.
    unfold store; simpl.
    destruct (<[e:=x1]> (elems s) !! p) as [y|] eqn:Hy; [|done].
    intros [= <-]. simpl.
    exists x1. rewrite !list_lookup_insert_ne by naive_solver. done.
  - apply NoDup_cons in Hnd as [Hn _].
    rewrite !elem_of_cons, elem_of_nil in Hn.
    unfold store; simpl.
    destruct (<[e:=x1]> (elems s) !! n) as [y|] eqn:Hy; [|done].
    intros [= <-]. simpl.
    exists x1. rewrite !list_lookup_insert_ne by naive_solver. done.
  - intros [= <-]. simpl. eauto.
Qed.


(** Every mutating call returns when its handle is one [Append] gave out. *)
Lemma exec_total o s :
  wf s -> valid_op s o -> exists s', exec o s = Ok (tt, s').
Proof.
  intros W Hv. destruct o as [v|e|e|fuel]; simpl in *.
  - unfold bind. destruct (Append_wf s v W) as (s1 & -> & _). eauto.
  - destruct (lookup_lt_is_Some_2 _ _ Hv) as [x Hx].
    destruct (removed x) eqn:Hr.
    + exists s. by eapply Remove_removed.
    + destruct (Remove_alive s e W) as (s1 & E & _); [|eauto].
      apply alive_lookup. eauto.
  - destruct (lookup_lt_is_Some_2 _ _ Hv) as [x Hx].
    rewrite (RemoveMark_Ok _ _ _ Hx). eauto.
  - rewrite RemoveMarked_inert. eauto.
Qed.

(** With the head as the only link-free element, nothing else is linked. *)
Lemma sole_element s e :
  wf s -> head (lst s) = Some e -> nxt s e = None ->
  forall i, alive s i = true -> i = e.
Proof.
  intros W Hh Hn i. induction (lt_wf i) as [i _ IH]. intros Ai.
  destruct (prv s i) as [j|] eqn:Ep.
  - destruct (wf_prv_alive _ W _ _ Ai Ep) as [Aj Nj].
    pose proof (wf_prv_lt _ W _ _ Ep) as Hlt.
    specialize (IH j Hlt Aj). subst j. congruence.
  - apply (wf_head _ W _ Ai) in Ep. congruence.
Qed.

Lemma live_handles_spec s i : i ∈ live_handles s <-> alive s i = true.
Proof.
  unfold live_handles. rewrite list_elem_of_filter, elem_of_seq. split.
  - by intros [? _].
  - intros A. split; [done|]. pose proof (alive_lt _ _ A). lia.
Qed.

Lemma live_handles_NoDup s : NoDup (live_handles s).
Proof. apply NoDup_filter, NoDup_seq. Qed.

Lemma two_live_other s e :
  2 <= length (live_handles s) -> exists i, alive s i = true /\ i <> e.
Proof.
  pose proof (live_handles_NoDup s) as Hnd.
  pose proof (live_handles_spec s) as Hsp.
  destruct (live_handles s) as [|a [|b l]]; simpl; [lia|lia|]. intros _.
  apply NoDup_cons in Hnd as [Hab _].
  apply not_elem_of_cons in Hab as [Hab _].
  destruct (decide (a = e)) as [->|Hne].
  - exists b. split; [|congruence].
    apply Hsp, list_elem_of_further, list_elem_of_here.
  - exists a. split; [|done]. apply Hsp, list_elem_of_here.
Qed.

(** In a list of two or more, the head has a successor and the tail a
    predecessor. *)
Lemma head_has_next s e :
  wf s -> 2 <= length (live_handles s) -> head (lst s) = Some e ->
  exists n, nxt s e = Some n.
Proof.
  intros W H2 Hh. destruct (nxt s e) as [n|] eqn:En; [eauto|].
  destruct (two_live_other s e H2) as (i & Ai & Hne).
  by pose proof (sole_element s e W Hh En i Ai).
Qed.

Lemma tail_has_prev s e :
  wf s -> 2 <= length (live_handles s) -> tail (lst s) = Some e ->
  exists p, prv s e = Some p.
Proof.
  intros W H2 Ht. destruct (prv s e) as [p|] eqn:Ep; [eauto|].
  pose proof (wf_tail_alive _ W _ Ht) as A.
  apply (wf_head _ W _ A) in Ep. apply (wf_tail _ W _ A) in Ht.
  destruct (two_live_other s e H2) as (i & Ai & Hne).
  by pose proof (sole_element s e W Ep Ht i Ai).
Qed.


(** ** Traversal *)

Lemma marked_lookup s i x : elems s !! i = Some x -> marked s i = remove x.
Proof. unfold marked. by intros ->. Qed.

(** One round of the loop of [Next], read off the views. *)
Lemma skip_marked_step fuel n s :
  n < length (elems s) ->
  skip_marked fuel (Some n) s =
  if marked s n then
    match fuel with
    | O => OutOfFuel
    | S fuel' => skip_marked fuel' (nxt s n) s
    end
  else Ok (Some n, s).
Proof.
  intros Hn. destruct (lookup_lt_is_Some_2 _ _ Hn) as [x Hx].
  rewrite (marked_lookup _ _ _ Hx), (nxt_lookup _ _ _ Hx).
  destruct fuel; simpl; unfold bind, ToRemove, bind, ret;
    rewrite (load_Ok _ _ _ Hx); destruct (remove x); simpl;
    rewrite ?(load_Ok _ _ _ Hx); done.
Qed.

Lemma Next_step fuel e s :
  e < length (elems s) -> Next fuel e s = skip_marked fuel (nxt s e) s.
Proof.
  intros He. destruct (lookup_lt_is_Some_2 _ _ He) as [x Hx].
  unfold Next, bind. by rewrite (load_Ok _ _ _ Hx), (nxt_lookup _ _ _ Hx).
Qed.

(** The loop of [Next] ends, on an unmarked element or on nil, and leaves
    the store alone. *)
Lemma skip_marked_total s :
  wf s ->
  forall fuel nx,
    (forall n, nx = Some n -> n < length (elems s) /\ length (elems s) - n <= fuel) ->
    exists r, skip_marked fuel nx s = Ok (r, s) /\
      forall j, r = Some j ->
        marked s j = false /\ j < length (elems s) /\
        forall n, nx = Some n -> n <= j.
Proof.
  intros W fuel. induction fuel as [|fuel IH]; intros [n|] Hnx;
    try (exists None; split; [done|]; intros; discriminate).
  - destruct (Hnx n eq_refl). lia.
  - destruct (Hnx n eq_refl) as [Hn Hf]. rewrite skip_marked_step by done.
    destruct (marked s n) eqn:Mn.
    + destruct (IH (nxt s n)) as (r & E & Hr).
      { intros m Em. apply (wf_nxt_lt _ W) in Em. lia. }
      exists r. split; [done|]. intros j Ej.
      destruct (Hr j Ej) as (Mj & Hj & Hle). repeat split; [done..|].
      intros ? [= <-]. destruct (nxt s n) as [m|] eqn:Em.
      * specialize (Hle m eq_refl). apply (wf_nxt_lt _ W) in Em. lia.
      * destruct fuel; simpl in E; unfold ret in E; congruence.
    + exists (Some n). split; [done|]. intros j [= <-].
      repeat split; [done..|]. by intros ? [= <-].
Qed.

Lemma Next_total s fuel e :
  wf s -> e < length (elems s) -> length (elems s) - e <= fuel ->
  exists r, Next fuel e s = Ok (r, s) /\
    forall j, r = Some j ->
      marked s j = false /\ e < j < length (elems s).
Proof.
  intros W He Hf. rewrite Next_step by done.
  destruct (skip_marked_total s W fuel (nxt s e)) as (r & E & Hr).
  { intros n En. apply (wf_nxt_lt _ W) in En. lia. }
  exists r. split; [done|]. intros j Ej.
  destruct (Hr j Ej) as (Mj & Hj & Hle). split; [done|].
  destruct (nxt s e) as [n|] eqn:En.
  - specialize (Hle n eq_refl). apply (wf_nxt_lt _ W) in En. lia.
  - destruct fuel; simpl in E; unfold ret in E; congruence.
Qed.

(** A walk ends, and every handle it yields after the first is unmarked. *)
Lemma walk_total s :
  wf s ->
  forall fuel h,
    (forall i, h = Some i -> i < length (elems s) /\ length (elems s) - i <= fuel) ->
    exists tr, walk fuel h s = Ok (tr, s) /\
      forall X, X ∈ tr -> h = Some X \/ marked s X = false.
Proof.
  intros W fuel. induction fuel as [|fuel IH]; intros [i|] Hh;
    try (exists []; split; [done|]; by intros X ?%elem_of_nil).
  - destruct (Hh i eq_refl). lia.
  - destruct (Hh i eq_refl) as [Hi Hf]. simpl. unfold bind.
    destruct (Next_total s (S fuel) i W Hi Hf) as (r & -> & Hr).
    destruct (IH r) as (tr & -> & Htr).
    { intros j Ej. destruct (Hr j Ej). lia. }
    exists (i :: tr). split; [done|]. intros X [->|HX]%elem_of_cons; [by left|].
    right. destruct (Htr X HX) as [->|]; [|done]. by destruct (Hr X eq_refl).
Qed.

Lemma traverse_total s fuel :
  wf s -> length (elems s) <= fuel ->
  exists tr, traverse fuel s = Ok (tr, s) /\
    forall X, X ∈ tr -> head (lst s) = Some X \/ marked s X = false.
Proof.
  intros W Hf. unfold traverse, bind, Head, bind, get_list, ret.
  apply walk_total; [done|]. intros i Hi.
  pose proof (alive_lt _ _ (wf_head_alive _ W _ Hi)). lia.
Qed.

(** Two stores with the same links and marks from [k] on give the loop of
    [Next] the same result from there. *)
Lemma skip_marked_agree s s' k :
  wf s -> length (elems s') = length (elems s) ->
  (forall i, k <= i -> nxt s' i = nxt s i /\ marked s' i = marked s i) ->
  forall fuel nx r,
    (forall n, nx = Some n -> k <= n < length (elems s)) ->
    skip_marked fuel nx s = Ok (r, s) ->
    skip_marked fuel nx s' = Ok (r, s').
Proof.
  intros W Hlen Hv fuel. induction fuel as [|fuel IH]; intros [n|] r Hnx;
    try (simpl; unfold ret; congruence).
  - destruct (Hnx n eq_refl) as [Hk Hn].
    rewrite !skip_marked_step by lia. destruct (Hv n Hk) as [_ ->].
    destruct (marked s n); [done|]. congruence.
  - destruct (Hnx n eq_refl) as [Hk Hn].
    rewrite !skip_marked_step by lia. destruct (Hv n Hk) as [-> ->].
    destruct (marked s n); [|congruence].
    apply IH. intros m Em. apply (wf_nxt_lt _ W) in Em. lia.
Qed.


(** ** Counting *)

(** [wrap_int] moves a number by a multiple of 2^64, so never by one. *)
Lemma wrap_int_not_succ z : wrap_int z <> (z + 1)%Z.
Proof.
  unfold wrap_int. intros H.
  pose proof (Z.div_mod (z + 2 ^ 63) (2 ^ 64) ltac:(lia)) as Hd. lia.
Qed.

Lemma wrap_int_small z : (- 2 ^ 63 <= z < 2 ^ 63)%Z -> wrap_int z = z.
Proof. intros H. unfold wrap_int. rewrite Z.mod_small; lia. Qed.

Lemma wrap_int_add_l a b : wrap_int (wrap_int a + b) = wrap_int (a + b).
Proof.
  unfold wrap_int. f_equal.
  replace ((a + 2 ^ 63) mod 2 ^ 64 - 2 ^ 63 + b + 2 ^ 63)%Z
    with ((a + 2 ^ 63) mod 2 ^ 64 + b)%Z by lia.
  replace (a + b + 2 ^ 63)%Z with ((a + 2 ^ 63) + b)%Z by lia.
  by rewrite Zplus_mod_idemp_l.
Qed.

(** Appending to a list that already has elements counts every value. *)
Lemma appends_nonempty vs :
  forall s, wf s -> head (lst s) <> None ->
  exists s', appends vs s = Ok (tt, s') /\ wf s' /\
    length (elems s') = length (elems s) + length vs /\
    size (lst s') =
      match vs with
      | [] => size (lst s)
      | _ => wrap_int (size (lst s) + Z.of_nat (length vs))
      end.
Proof.
  induction vs as [|v vs IH]; intros s W Hh.
  - exists s. simpl. by rewrite Nat.add_0_r.
  - destruct (Append_wf s v W) as (s1 & E1 & A1).
    pose proof (wf_appended _ _ W A1) as W1.
    destruct (IH s1 W1) as (s' & E & W' & Hlen & Hsz).
    { rewrite (ap_head _ _ A1). by destruct (head (lst s)). }
    exists s'. simpl. unfold bind. rewrite E1, E. split; [done|]. split; [done|].
    split. { rewrite Hlen, (ap_length _ _ A1). simpl. lia. }
    rewrite Hsz, (ap_size _ _ A1).
    destruct (head (lst s)) eqn:Eh; [|done].
    destruct vs as [|w vs]; simpl length.
    + f_equal; lia.
    + rewrite wrap_int_add_l. f_equal; lia.
Qed.

(** The first [Append] on a new list is not counted. *)
Lemma appends_New v vs :
  exists s, appends (v :: vs) New = Ok (tt, s) /\ wf s /\
    length (elems s) = S (length vs) /\
    size (lst s) = wrap_int (Z.of_nat (length vs)).
Proof.
  destruct (Append_wf New v wf_New) as (s1 & E1 & A1).
  pose proof (wf_appended _ _ wf_New A1) as W1.
  destruct (appends_nonempty vs s1 W1) as (s' & E & W' & Hlen & Hsz).
  { by rewrite (ap_head _ _ A1). }
  exists s'. simpl. unfold bind. rewrite E1, E. split; [done|]. split; [done|].
  split. { rewrite Hlen, (ap_length _ _ A1). done. }
  rewrite Hsz, (ap_size _ _ A1). simpl.
  destruct vs; [done|]. done.
Qed.

(** Below 2^63 appends, [Len()] is one less than their number. *)
Lemma Len_after_appends_small v vs :
  (Z.of_nat (length vs) < 2 ^ 63)%Z ->
  exists s, appends (v :: vs) New = Ok (tt, s) /\
    Len s = Ok (Z.of_nat (length vs), s).
Proof.
  intros Hs. destruct (appends_New v vs) as (s & E & _ & _ & Hsz).
  exists s. split; [done|]. unfold Len, bind, get_list, ret.
  rewrite Hsz, wrap_int_small by lia. done.
Qed.

(** A program of calls that return leads to a reachable store. *)
Lemma reachable_run os :
  forall s s', reachable s -> run os s = Ok (tt, s') -> reachable s'.
Proof.
  induction os as [|o os IH]; intros s s' R; simpl.
  - by intros [= <-].
  - unfold bind. destruct (exec o s) as [[[] s1]| | |] eqn:E; try done.
    apply IH. by eapply reach_step.
Qed.

Lemma reachable_state_after os s :
  run os New = Ok (tt, s) -> reachable (state_after os).
Proof.
  intros E. unfold state_after. rewrite E. eapply reachable_run; [|exact E].
  apply reach_New.
Qed.

(** A sweep at the end of a program adds nothing to it. *)
Lemma run_then_RemoveMarked os fuel s :
  run (os ++ [OpRemoveMarked fuel]) s = run os s.
Proof.
  revert s. induction os as [|o os IH]; intros s; simpl.
  - unfold bind. by rewrite RemoveMarked_inert.
  - unfold bind. destruct (exec o s) as [[[] s1]| | |]; [apply IH|done..].
Qed.

Lemma state_after_RemoveMarked os fuel :
  state_after (os ++ [OpRemoveMarked fuel]) = state_after os.
Proof. unfold state_after. by rewrite run_then_RemoveMarked. Qed.

(** ** The claims *)

(** C6. In every reachable store [Remove] on a handle of the list returns;
    and for every handle and every store, a second [Remove] on the handle is
    a no-op: it returns and leaves the store (size, head, tail and every
    element with its links and flags) exactly as the first call left it. *)
Theorem C6_Remove_twice e s :
  (reachable s -> e < length (elems s) ->
   exists s1, Remove e s = Ok (tt, s1)) /\
  (forall s1, Remove e s = Ok (tt, s1) -> Remove e s1 = Ok (tt, s1)).
Proof.
  split.
  - intros R He. apply (exec_total (OpRemove e)); [by apply reachable_wf|done].
  - intros s1 (x & Hx & Hr)%Remove_sets_removed. by eapply Remove_removed.
Qed.

(** C8. [RemoveMark] sets the lazy-removal flag of its element and nothing
    else: the [List] struct (size, head, tail) is the same, the element keeps
    its value, removed flag, next and prev, every other element is the same;
    a second call changes nothing. *)
Theorem C8_RemoveMark_frame e s s' :
  RemoveMark e s = Ok (tt, s') ->
  lst s' = lst s /\
  length (elems s') = length (elems s) /\
  (exists x x', elems s !! e = Some x /\ elems s' !! e = Some x' /\
     remove x' = true /\ value x' = value x /\ removed x' = removed x /\
     next x' = next x /\ prev x' = prev x) /\
  (forall i, i <> e -> elems s' !! i = elems s !! i) /\
  RemoveMark e s' = Ok (tt, s').
Proof.
  intros (x & Hx & ->)%RemoveMark_inv.
  pose proof (lookup_lt_Some _ _ _ Hx) as He. simpl.
  assert (Hx' : <[e:=set_remove true x]> (elems s) !! e = Some (set_remove true x))
    by (by apply list_lookup_insert_eq).
  split; [done|]. split; [apply length_insert|]. split.
  { exists x, (set_remove true x). done. }
  split.
  { intros i Hi. by apply list_lookup_insert_ne. }
  rewrite (RemoveMark_Ok e (mkStore _ _) _ Hx'). simpl.
  by rewrite list_insert_insert_eq.
Qed.

(** C9. A call to [RemoveMarked] returns, for every loop budget, and leaves
    the store unchanged: head, tail, size and every element with its flags
    and links, however many elements are marked. *)
Theorem C9_RemoveMarked_changes_nothing fuel s :
  RemoveMarked fuel s = Ok (tt, s).
Proof. apply RemoveMarked_inert. Qed.


(** C7. "Head is absent if and only if tail is absent" holds for the store
    of [New()], and in every store a program can reach it holds, every
    mutating call on a handle of the list ([Append], [Remove], [RemoveMark],
    [RemoveMarked]) returns, and it holds again in the store the call
    leaves. *)
Theorem C7_head_tail_invariant :
  head_tail_inv New /\
  forall s o, reachable s ->
    head_tail_inv s /\
    (valid_op s o -> exists s', exec o s = Ok (tt, s')) /\
    (forall s', exec o s = Ok (tt, s') -> head_tail_inv s').
Proof.
  split; [done|]. intros s o R. pose proof (reachable_wf _ R) as W.
  split; [apply (wf_head_tail _ W)|]. split.
  - by apply exec_total.
  - intros s' E. apply (wf_head_tail s'). by eapply wf_exec.
Qed.

(** C5. In a list of two or more elements: [Remove] on the head makes its
    successor the head and clears the successor's prev; [Remove] on the tail
    makes its predecessor the tail and clears the predecessor's next;
    [Remove] on an element that is neither joins its predecessor's next to
    its successor and its successor's prev to its predecessor. *)
Theorem C5_Remove_by_position s :
  reachable s -> 2 <= length (live_handles s) ->
  (forall e, head (lst s) = Some e ->
     exists n s', nxt s e = Some n /\ Remove e s = Ok (tt, s') /\
       head (lst s') = Some n /\ prv s' n = None) /\
  (forall e, tail (lst s) = Some e ->
     exists p s', prv s e = Some p /\ Remove e s = Ok (tt, s') /\
       tail (lst s') = Some p /\ nxt s' p = None) /\
  (forall e, e ∈ live_handles s ->
     head (lst s) <> Some e -> tail (lst s) <> Some e ->
     exists p n s', prv s e = Some p /\ nxt s e = Some n /\
       Remove e s = Ok (tt, s') /\
       nxt s' p = Some n /\ prv s' n = Some p).
Proof.
  intros R H2. pose proof (reachable_wf _ R) as W. repeat split.
  - intros e Hh. pose proof (wf_head_alive _ W _ Hh) as A.
    destruct (head_has_next s e W H2 Hh) as [n En].
    destruct (Remove_alive s e W A) as (s' & E & U).
    assert (Ep : prv s e = None) by (by apply (wf_head _ W _ A)).
    exists n, s'. repeat split; [done..| |].
    + by rewrite (ul_head _ _ _ U), Ep.
    + rewrite (ul_prv _ _ _ U), En. by rewrite decide_True.
  - intros e Ht. pose proof (wf_tail_alive _ W _ Ht) as A.
    destruct (tail_has_prev s e W H2 Ht) as [p Ep].
    destruct (Remove_alive s e W A) as (s' & E & U).
    assert (En : nxt s e = None) by (by apply (wf_tail _ W _ A)).
    exists p, s'. repeat split; [done..| |].
    + by rewrite (ul_tail _ _ _ U), En.
    + rewrite (ul_nxt _ _ _ U), Ep. by rewrite decide_True.
  - intros e A%live_handles_spec Hh Ht.
    destruct (prv s e) as [p|] eqn:Ep.
    2:{ by apply (wf_head _ W _ A) in Ep. }
    destruct (nxt s e) as [n|] eqn:En.
    2:{ by apply (wf_tail _ W _ A) in En. }
    destruct (Remove_alive s e W A) as (s' & E & U).
    exists p, n, s'. repeat split; [done| |].
    + rewrite (ul_nxt _ _ _ U), Ep, En. by rewrite decide_True.
    + rewrite (ul_prv _ _ _ U), Ep, En. by rewrite decide_True.
Qed.


(** C3 (amended). In every reachable store a full traversal from [Head()]
    along [Next()] ends, and an element that is marked, not removed and not
    the one [Head()] returns is never among the handles it yields.  ([Head()]
    returns the first element whether it is marked or not.) *)
Theorem C3_traversal_skips_marked s X fuel :
  reachable s -> length (elems s) <= fuel ->
  marked s X = true -> alive s X = true -> head (lst s) <> Some X ->
  exists tr, traverse fuel s = Ok (tr, s) /\ X ∉ tr.
Proof.
  intros R Hf MX _ Hh. pose proof (reachable_wf _ R) as W.
  destruct (traverse_total s fuel W Hf) as (tr & E & Htr).
  exists tr. split; [done|]. intros [?|?]%Htr; congruence.
Qed.

(** C1. What the code does where the claim asks for [Len() = N]: after
    [N = 1 + length vs] appends on a new list, [Len()] returns the wrapped
    value of [N - 1], which is never [N]. *)
Theorem C1_Len_after_appends (v : V) (vs : list V) :
  exists s, appends (v :: vs) New = Ok (tt, s) /\
    Len s = Ok (wrap_int (Z.of_nat (length vs)), s) /\
    wrap_int (Z.of_nat (length vs)) <> Z.of_nat (length (v :: vs)).
Proof.
  destruct (appends_New v vs) as (s & E & _ & _ & Hsz).
  exists s. split; [done|]. split.
  - unfold Len, bind, get_list, ret. by rewrite Hsz.
  - intros H. apply (wrap_int_not_succ (Z.of_nat (length vs))).
    rewrite H. simpl length. lia.
Qed.

(** C2. What the code does where the claim asks for the marked elements to
    be swept: after three appends, a mark on the second element and
    [RemoveMarked], [Len()] is what it was before the sweep and the marked
    element is still linked; with the mark on the first element instead, the
    traversal after the sweep still yields it. *)
Theorem C2_RemoveMarked_sweeps_nothing (a b c : V) (fuel : nat) :
  let s := state_after [OpAppend a; OpAppend b; OpAppend c; OpRemoveMark 1] in
  let s' := state_after [OpAppend a; OpAppend b; OpAppend c; OpRemoveMark 1;
                         OpRemoveMarked fuel] in
  let t := state_after [OpAppend a; OpAppend b; OpAppend c; OpRemoveMark 0;
                        OpRemoveMarked fuel] in
  Len s = Ok (2%Z, s) /\
  RemoveMarked fuel s = Ok (tt, s') /\
  Len s' = Ok (2%Z, s') /\
  live_handles s' = [0; 1; 2] /\
  nxt s' 0 = Some 1 /\
  marked t 0 = true /\
  traverse 3 t = Ok ([0; 1; 2], t).
Proof.
  intros s s' t.
  assert (Hs' : s' = s)
    by apply (state_after_RemoveMarked
                [OpAppend a; OpAppend b; OpAppend c; OpRemoveMark 1]).
  assert (Ht : t = state_after
                     [OpAppend a; OpAppend b; OpAppend c; OpRemoveMark 0])
    by apply (state_after_RemoveMarked
                [OpAppend a; OpAppend b; OpAppend c; OpRemoveMark 0]).
  rewrite Hs', Ht, RemoveMarked_inert. repeat split; reflexivity.
Qed.

(** C4. What the code does where the claim asks for [Len() = 0]: after one
    append on a new list and [Remove] on that only element, the list is
    empty ([Head()] is nil) and [Len()] returns -1. *)
Theorem C4_Remove_sole_element (v : V) :
  let s := state_after [OpAppend v] in
  let s' := state_after [OpAppend v; OpRemove 0] in
  live_handles s = [0] /\
  Remove 0 s = Ok (tt, s') /\
  Head s' = Ok (None, s') /\
  tail (lst s') = None /\
  Len s' = Ok ((-1)%Z, s').
Proof. repeat split; reflexivity. Qed.

(** ** Further properties of the package *)

(** *** What no call ever undoes, and what the readers leave alone *)

Lemma preserves_ret {A} (R : Store -> Store -> Prop) (a : A) :
  (forall s, R s s) -> preserves R (ret a).
Proof. intros Hr s a' s' [= _ <-]. apply Hr. Qed.

Lemma preserves_bind {A B} (R : Store -> Store -> Prop)
    (c : M A) (k : A -> M B) :
  (forall s1 s2 s3, R s1 s2 -> R s2 s3 -> R s1 s3) ->
  preserves R c -> (forall a, preserves R (k a)) -> preserves R (bind c k).
Proof.
  intros Ht Hc Hk s b s'. unfold bind.
  destruct (c s) as [[a s1]| | |] eqn:E; try done.
  intros E2. eapply Ht; [by eapply Hc|by eapply Hk].
Qed.

Lemma preserves_fail {A} (R : Store -> Store -> Prop) :
  preserves R (@panic A) /\ preserves R (@out_of_fuel A).
Proof. split; intros s a s'; done. Qed.

Lemma preserves_load R e : (forall s, R s s) -> preserves R (load e).
Proof.
  intros Hr s x s'. unfold load. destruct (elems s !! e); [|done].
  intros [= _ <-]. apply Hr.
Qed.

Lemma preserves_get_list R : (forall s, R s s) -> preserves R get_list.
Proof. intros Hr s x s' [= _ <-]. apply Hr. Qed.

Lemma preserves_acquire R hs : (forall s, R s s) -> preserves R (acquire hs).
Proof.
  intros Hr s x s'. unfold acquire. case_bool_decide; [|done].
  intros [= _ <-]. apply Hr.
Qed.

Lemma kept_refl s : kept s s.
Proof. intros i x Hx. exists x. done. Qed.

Lemma kept_trans s1 s2 s3 : kept s1 s2 -> kept s2 s3 -> kept s1 s3.
Proof.
  intros H12 H23 i x Hx.
  destruct (H12 i x Hx) as (y & Hy & Hv & Hm & Hr).
  destruct (H23 i y Hy) as (z & Hz & Hv' & Hm' & Hr').
  exists z. repeat split; [done|congruence|auto..].
Qed.

Lemma kept_upd_list f : preserves kept (upd_list f).
Proof. intros s a s' [= _ <-]. intros i x Hx. exists x. done. Qed.

Lemma kept_alloc x : preserves kept (alloc x).
Proof.
  intros s a s' [= _ <-]. intros i y Hy. exists y. simpl.
  split; [|done]. by apply lookup_app_l_Some.
Qed.

(** A field assignment that does not touch the payload and clears no flag. *)
Lemma kept_store e f :
  (forall x, value (f x) = value x /\
             (remove x = true -> remove (f x) = true) /\
             (removed x = true -> removed (f x) = true)) ->
  preserves kept (store e f).
Proof.
  intros Hf s a s'. unfold store.
  destruct (elems s !! e) as [y|] eqn:Hy; [|done]. intros [= _ <-].
  intros i x Hx. simpl. destruct (decide (i = e)) as [->|Hne].
  - exists (f y). rewrite list_lookup_insert_eq by by eapply lookup_lt_Some.
    assert (x = y) as -> by congruence. split; [done|]. apply Hf.
  - exists x. by rewrite list_lookup_insert_ne.
Qed.

Local Ltac kept_step :=
  first
    [ apply preserves_bind; [apply kept_trans| |intros ?]
    | apply preserves_ret; apply kept_refl
    | apply preserves_load; apply kept_refl
    | apply preserves_get_list; apply kept_refl
    | apply preserves_acquire; apply kept_refl
    | apply kept_upd_list
    | apply kept_alloc
    | apply kept_store; intros ?; simpl; by auto
    | apply (proj1 (preserves_fail kept))
    | match goal with
      | |- preserves _ (match ?x with _ => _ end) => destruct x
      end ].

Lemma kept_Append v : preserves kept (Append v).
Proof.
  unfold Append. repeat kept_step.
Qed.

Lemma kept_RemoveMark e : preserves kept (RemoveMark e).
Proof. unfold RemoveMark. kept_step. Qed.

Lemma kept_Remove e : preserves kept (Remove e).
Proof.
  unfold Remove. repeat kept_step.
Qed.

Lemma kept_exec o : preserves kept (exec o).
Proof.
  destruct o as [v|e|e|fuel]; simpl.
  - kept_step; [apply kept_Append|kept_step].
  - apply kept_Remove.
  - apply kept_RemoveMark.
  - intros s a s'. rewrite RemoveMarked_inert. intros [= _ <-]. apply kept_refl.
Qed.

Lemma kept_run os : preserves kept (run os).
Proof.
  induction os as [|o os IH]; simpl; [kept_step|].
  kept_step; [apply kept_exec|apply IH].
Qed.

(** X1. Across any program of calls that returns, on any store: every
    handle stays valid and keeps its payload, a lazy mark that was set is
    still set, and an element that was removed is still removed. *)
Theorem X1_nothing_taken_back os s s' :
  run os s = Ok (tt, s') ->
  forall i x, elems s !! i = Some x ->
    exists x', elems s' !! i = Some x' /\ value x' = value x /\
      (remove x = true -> remove x' = true) /\
      (removed x = true -> removed x' = true).
Proof. intros E. by apply (kept_run os s tt s'). Qed.

Local Ltac same_step :=
  first
    [ apply preserves_bind; [intros ? ? ?; congruence| |intros ?]
    | apply preserves_ret; done
    | apply preserves_load; done
    | apply preserves_get_list; done
    | apply (proj2 (preserves_fail eq))
    | apply (proj1 (preserves_fail eq)) ].

Lemma same_ToRemove e : preserves eq (ToRemove e).
Proof. unfold ToRemove. repeat same_step. Qed.

Lemma same_skip_marked fuel : forall nx, preserves eq (skip_marked fuel nx).
Proof.
  induction fuel as [|fuel IH]; intros [n|]; simpl; try same_step.
  - apply same_ToRemove.
  - destruct a; same_step.
  - apply same_ToRemove.
  - destruct a; [|same_step]. same_step; [same_step|apply IH].
Qed.

Lemma same_Value e : preserves eq (Value e).
Proof. unfold Value. repeat same_step. Qed.

Lemma same_Next fuel e : preserves eq (Next fuel e).
Proof. unfold Next. same_step; [same_step|apply same_skip_marked]. Qed.

Lemma same_walk fuel : forall h, preserves eq (walk fuel h).
Proof.
  induction fuel as [|fuel IH]; intros [i|]; simpl; try same_step.
  - apply same_Next.
  - same_step; [apply IH|same_step].
Qed.

Lemma same_traverse fuel : preserves eq (traverse fuel).
Proof.
  unfold traverse, Head. same_step; [repeat same_step|apply same_walk].
Qed.

(** X2. The readers never write: when [Len], [Head], [Value], [ToRemove],
    [Next] or a whole traversal returns, on any store and with any loop
    budget, the store is the one it was given. *)
Theorem X2_readers_change_nothing s s' :
  (forall n, Len s = Ok (n, s') -> s' = s) /\
  (forall h, Head s = Ok (h, s') -> s' = s) /\
  (forall e v, Value e s = Ok (v, s') -> s' = s) /\
  (forall e b, ToRemove e s = Ok (b, s') -> s' = s) /\
  (forall fuel e r, Next fuel e s = Ok (r, s') -> s' = s) /\
  (forall fuel tr, traverse fuel s = Ok (tr, s') -> s' = s).
Proof.
  repeat split.
  - by intros n [= _ <-].
  - by intros h [= _ <-].
  - intros e v E. symmetry. by eapply same_Value.
  - intros e b E. symmetry. by eapply same_ToRemove.
  - intros fuel e r E. symmetry. by eapply same_Next.
  - intros fuel tr E. symmetry. by eapply same_traverse.
Qed.

(** *** The chain and the traversal *)

(** The head is the first element of the list that is not removed. *)
Lemma head_le s h i :
  wf s -> head (lst s) = Some h -> alive s i = true -> h <= i.
Proof.
  intros W Hh. induction (lt_wf i) as [i _ IH]. intros Ai.
  destruct (prv s i) as [p|] eqn:Ep.
  - destruct (wf_prv_alive _ W _ _ Ai Ep) as [Ap _].
    pose proof (wf_prv_lt _ W _ _ Ep) as Hlt. specialize (IH p Hlt Ap). lia.
  - apply (wf_head _ W _ Ai) in Ep. assert (h = i) by congruence. lia.
Qed.

Lemma no_head_no_alive s i :
  wf s -> head (lst s) = None -> alive s i = false.
Proof.
  intros W Hh. induction (lt_wf i) as [i _ IH].
  destruct (alive s i) eqn:Ai; [|done].
  destruct (prv s i) as [p|] eqn:Ep.
  - destruct (wf_prv_alive _ W _ _ Ai Ep) as [Ap _].
    pose proof (wf_prv_lt _ W _ _ Ep) as Hlt. rewrite (IH p Hlt) in Ap. done.
  - apply (wf_head _ W _ Ai) in Ep. congruence.
Qed.

(** Nothing that is not removed sits between an element and its next. *)
Lemma none_between s i :
  wf s -> alive s i = true ->
  forall a b, alive s a = true -> nxt s a = Some b -> a < i -> i < b -> False.
Proof.
  intros W. induction (lt_wf i) as [i _ IH]. intros Ai a b Aa Hab Hai Hib.
  destruct (prv s i) as [q|] eqn:Eq.
  - destruct (wf_prv_alive _ W _ _ Ai Eq) as [Aq Nq].
    pose proof (wf_prv_lt _ W _ _ Eq) as Hq.
    destruct (lt_eq_lt_dec q a) as [[Hlt| ->]|Hgt].
    + apply (IH a Hai Aa q i Aq Nq Hlt Hai).
    + assert (b = i) by congruence. lia.
    + apply (IH q Hq Aq a b Aa Hab Hgt). lia.
  - apply (wf_head _ W _ Ai) in Eq. pose proof (head_le s i a W Eq Aa). lia.
Qed.

(** Nothing that is not removed comes after an element without a next. *)
Lemma none_after s a :
  wf s -> alive s a = true -> nxt s a = None ->
  forall i, alive s i = true -> i <= a.
Proof.
  intros W Aa Na i. induction (lt_wf i) as [i _ IH]. intros Ai.
  destruct (le_lt_dec i a) as [|Hlt]; [done|]. exfalso.
  destruct (prv s i) as [q|] eqn:Eq.
  - destruct (wf_prv_alive _ W _ _ Ai Eq) as [Aq Nq].
    pose proof (wf_prv_lt _ W _ _ Eq) as Hq.
    destruct (lt_eq_lt_dec q a) as [[Hlt'| ->]|Hgt].
    + by apply (none_between s a W Aa q i Aq Nq).
    + congruence.
    + specialize (IH q Hq Aq). lia.
  - apply (wf_head _ W _ Ai) in Eq. pose proof (head_le s i a W Eq Aa). lia.
Qed.

Lemma live_from_nil s k :
  (forall i, k <= i -> alive s i = false) -> live_from s k = [].
Proof.
  unfold live_from. intros H.
  remember (length (elems s) - k) as n eqn:Hn. clear Hn.
  revert k H. induction n as [|n IH]; intros k H; simpl; [done|].
  rewrite filter_cons_False by (rewrite H; [done|lia]).
  apply IH. intros i Hi. apply H. lia.
Qed.

Lemma live_from_first s k j :
  k <= j -> alive s j = true ->
  (forall i, k <= i -> i < j -> alive s i = false) ->
  live_from s k = j :: live_from s (S j).
Proof.
  unfold live_from. intros Hkj Aj H.
  pose proof (alive_lt _ _ Aj) as Hj.
  remember (j - k) as d eqn:Hd.
  revert k Hkj H Hd. induction d as [|d IH]; intros k Hkj H Hd.
  - assert (k = j) as -> by lia.
    replace (length (elems s) - j) with (S (length (elems s) - S j)) by lia.
    simpl. by rewrite filter_cons_True.
  - replace (length (elems s) - k) with (S (length (elems s) - S k)) by lia.
    simpl. rewrite filter_cons_False by (rewrite H; [done|lia..]).
    apply IH; [lia| |lia]. intros i ? ?. apply H; lia.
Qed.

(** The list from just after an element on starts at its next. *)
Lemma live_from_next s i :
  wf s -> alive s i = true ->
  live_from s (S i) =
  match nxt s i with
  | None => []
  | Some j => j :: live_from s (S j)
  end.
Proof.
  intros W Ai. destruct (nxt s i) as [j|] eqn:En.
  - destruct (wf_nxt_alive _ W _ _ Ai En) as [Aj _].
    pose proof (wf_nxt_lt _ W _ _ En).
    apply live_from_first; [lia|done|]. intros k Hk Hkj.
    destruct (alive s k) eqn:Ak; [|done].
    exfalso. apply (none_between s k W Ak i j Ai En); lia.
  - apply live_from_nil. intros k Hk.
    destruct (alive s k) eqn:Ak; [|done].
    pose proof (none_after s i W Ai En k Ak). lia.
Qed.

Lemma live_handles_from s : live_handles s = live_from s 0.
Proof. unfold live_handles, live_from. by rewrite Nat.sub_0_r. Qed.

(** The list starts at the head. *)
Lemma live_handles_head s :
  wf s ->
  live_handles s =
  match head (lst s) with
  | None => []
  | Some h => h :: live_from s (S h)
  end.
Proof.
  intros W. rewrite live_handles_from. destruct (head (lst s)) as [h|] eqn:Eh.
  - apply live_from_first; [lia|by apply (wf_head_alive _ W)|].
    intros i _ Hi. destruct (alive s i) eqn:Ai; [|done].
    pose proof (head_le s h i W Eh Ai). lia.
  - apply live_from_nil. intros i _. by apply no_head_no_alive.
Qed.

(** The loop of [Next] from a live element: it ends on the first element
    after it that is neither removed nor marked. *)
Lemma skip_marked_spec s :
  wf s ->
  forall fuel i,
    alive s i = true -> length (elems s) - S i <= fuel ->
    exists r, skip_marked fuel (nxt s i) s = Ok (r, s) /\
      filter (fun j => marked s j = false) (live_from s (S i)) =
        match r with
        | None => []
        | Some j => j :: filter (fun k => marked s k = false) (live_from s (S j))
        end /\
      forall j, r = Some j -> alive s j = true /\ i < j.
Proof.
  intros W fuel. induction fuel as [|fuel IH]; intros i Ai Hf;
    rewrite (live_from_next s i W Ai);
    destruct (nxt s i) as [j|] eqn:En;
    try (exists None; split; [done|]; split; [done|]; intros; discriminate).
  - pose proof (wf_nxt_lt _ W _ _ En). lia.
  - pose proof (wf_nxt_lt _ W _ _ En) as Hj.
    destruct (wf_nxt_alive _ W _ _ Ai En) as [Aj _].
    rewrite skip_marked_step by lia.
    destruct (marked s j) eqn:Mj.
    + destruct (IH j Aj) as (r & E & Hfl & Hr); [lia|].
      exists r. split; [done|]. split.
      * rewrite filter_cons_False by (by rewrite Mj). done.
      * intros k Ek. destruct (Hr k Ek). split; [done|lia].
    + exists (Some j). split; [done|]. split.
      * by rewrite filter_cons_True.
      * intros ? [= <-]. split; [done|lia].
Qed.

Lemma walk_spec s :
  wf s ->
  forall fuel i,
    alive s i = true -> length (elems s) - i <= fuel ->
    walk fuel (Some i) s =
    Ok (i :: filter (fun j => marked s j = false) (live_from s (S i)), s).
Proof.
  intros W fuel. induction fuel as [|fuel IH]; intros i Ai Hf.
  - pose proof (alive_lt _ _ Ai). lia.
  - pose proof (alive_lt _ _ Ai) as Hi. simpl. unfold bind.
    rewrite Next_step by done.
    destruct (skip_marked_spec s W (S fuel) i Ai) as (r & -> & Hfl & Hr); [lia|].
    rewrite Hfl. destruct r as [j|]; [|by destruct fuel].
    destruct (Hr j eq_refl) as [Aj Hij].
    rewrite (IH j Aj) by lia. done.
Qed.

Lemma traverse_wf s fuel :
  wf s -> length (elems s) <= fuel ->
  traverse fuel s =
  Ok (match live_handles s with
      | [] => []
      | h :: t => h :: filter (fun j => marked s j = false) t
      end, s).
Proof.
  intros W Hf. rewrite (live_handles_head s W).
  unfold traverse, bind, Head, bind, get_list, ret.
  destruct (head (lst s)) as [h|] eqn:Eh.
  - apply walk_spec; [done|by apply (wf_head_alive _ W)|lia].
  - by destruct fuel.
Qed.

(** X3. In every reachable store, given a loop budget of at least the number
    of handles, a traversal from [Head()] along [Next()] returns, and yields
    the first element of the list followed by the later elements that carry
    no lazy mark, in append order. *)
Theorem X3_traverse_spec s fuel :
  reachable s -> length (elems s) <= fuel ->
  traverse fuel s =
  Ok (match live_handles s with
      | [] => []
      | h :: t => h :: filter (fun j => marked s j = false) t
      end, s).
Proof. intros R Hf. apply traverse_wf; [by apply reachable_wf|done]. Qed.

(** X4. In every reachable store, [Next()] on an element of the list returns
    the first element appended after it that is neither removed nor marked,
    or nil when there is none. *)
Theorem X4_Next_spec s e fuel :
  reachable s -> e ∈ live_handles s -> length (elems s) <= fuel ->
  Next fuel e s =
  Ok (hd_error (filter (fun j => marked s j = false) (live_from s (S e))), s).
Proof.
  intros R Ae%live_handles_spec Hf. pose proof (reachable_wf _ R) as W.
  rewrite Next_step by by apply alive_lt.
  destruct (skip_marked_spec s W fuel e Ae) as (r & -> & -> & _); [lia|].
  by destruct r.
Qed.

(** What the loop of [Next] returns is what [first_unmarked] asks for. *)
Lemma skip_marked_first s :
  wf s ->
  forall fuel nx r,
    (forall n, nx = Some n -> n < length (elems s)) ->
    skip_marked fuel nx s = Ok (r, s) -> first_unmarked s nx r.
Proof.
  intros W fuel. induction fuel as [|fuel IH]; intros [n|] r Hnx;
    try (simpl; unfold ret; intros [= <-]; apply fu_nil).
  - rewrite skip_marked_step by by apply Hnx.
    destruct (marked s n) eqn:Mn; [done|]. intros [= <-]. by apply fu_here.
  - rewrite skip_marked_step by by apply Hnx.
    destruct (marked s n) eqn:Mn.
    + intros E. apply fu_skip; [done|]. apply IH; [|done].
      intros m Em. apply (wf_nxt_lt _ W) in Em. lia.
    + intros [= <-]. by apply fu_here.
Qed.

(** C10. [Remove] leaves the next and prev links of the element it removes
    as they were, and [Next()] on the handle afterwards returns, starting
    from the successor the element had when it was removed, the first
    element that carries no lazy mark: nil when it had no successor, the
    successor itself when that is unmarked, and, for an element that was in
    the list, the first element appended after it that is neither removed
    nor marked.  It is the element [Next()] returned before the removal. *)
Theorem C10_Next_after_Remove s e fuel :
  reachable s -> e < length (elems s) -> length (elems s) <= fuel ->
  exists s' r,
    Remove e s = Ok (tt, s') /\
    nxt s' e = nxt s e /\ prv s' e = prv s e /\
    Next fuel e s' = Ok (r, s') /\
    skip_marked fuel (nxt s e) s' = Ok (r, s') /\
    Next fuel e s = Ok (r, s) /\
    first_unmarked s (nxt s e) r /\
    (nxt s e = None -> r = None) /\
    (forall n, nxt s e = Some n -> marked s n = false -> r = Some n) /\
    (e ∈ live_handles s ->
     r = hd_error (filter (fun j => marked s j = false) (live_from s (S e)))).
Proof.
  intros R He Hf. pose proof (reachable_wf _ R) as W.
  destruct (Next_total s fuel e W He) as (r & En & _); [lia|].
  assert (Esk : skip_marked fuel (nxt s e) s = Ok (r, s))
    by (by rewrite <- Next_step).
  assert (Hfu : first_unmarked s (nxt s e) r).
  { apply (skip_marked_first s W fuel); [|done].
    intros n Hn. apply (wf_nxt_lt _ W) in Hn. lia. }
  assert (Hnil : nxt s e = None -> r = None).
  { intros Hn. rewrite Hn in Hfu. by inversion Hfu. }
  assert (Hsucc : forall n, nxt s e = Some n -> marked s n = false -> r = Some n).
  { intros n Hn Mn. rewrite Hn in Hfu. inversion Hfu; [done|congruence]. }
  assert (Hlist : e ∈ live_handles s ->
            r = hd_error (filter (fun j => marked s j = false)
                            (live_from s (S e)))).
  { intros Ae%live_handles_spec.
    destruct (skip_marked_spec s W fuel e Ae) as (r' & E' & Hfl & _); [lia|].
    assert (r' = r) as -> by congruence. rewrite Hfl. by destruct r. }
  destruct (alive s e) eqn:A.
  - destruct (Remove_alive s e W A) as (s' & E & U).
    pose proof (ul_length _ _ _ U) as Hlen.
    assert (Hnx : forall i, e <= i -> nxt s' i = nxt s i).
    { intros i Hi. rewrite (ul_nxt _ _ _ U). rewrite decide_False; [done|].
      intros Hd. symmetry in Hd. apply (wf_prv_lt _ W) in Hd. lia. }
    assert (Hpe : prv s' e = prv s e).
    { rewrite (ul_prv _ _ _ U). rewrite decide_False; [done|].
      intros Hd. symmetry in Hd. apply (wf_nxt_lt _ W) in Hd. lia. }
    assert (Hsk : skip_marked fuel (nxt s e) s' = Ok (r, s')).
    { apply (skip_marked_agree s s' e W Hlen).
      - intros i Hi. split; [by apply Hnx|apply (ul_marked _ _ _ U)].
      - intros n Hn. apply (wf_nxt_lt _ W) in Hn. lia.
      - done. }
    exists s', r. split; [done|]. split; [by apply Hnx|]. split; [done|].
    split; [|done]. rewrite Next_step by lia. by rewrite Hnx.
  - destruct (lookup_lt_is_Some_2 _ _ He) as [x Hx].
    assert (Hr : removed x = true).
    { unfold alive in A. rewrite Hx in A. by destruct (removed x). }
    exists s, r. rewrite (Remove_removed _ _ _ Hx Hr). done.
Qed.

(** *** How the calls change the list *)

Lemma filter_ext_in (P Q : nat -> Prop)
    `{!forall x, Decision (P x), !forall x, Decision (Q x)} (l : list nat) :
  (forall x, x ∈ l -> (P x <-> Q x)) -> filter P l = filter Q l.
Proof.
  induction l as [|a l IH]; intros Hext; [done|].
  assert (Ha : P a <-> Q a) by apply Hext, list_elem_of_here.
  assert (Hl : filter P l = filter Q l).
  { apply IH. intros x Hx. by apply Hext, list_elem_of_further. }
  destruct (decide (P a)).
  - rewrite !filter_cons_True by tauto. by rewrite Hl.
  - rewrite !filter_cons_False by tauto. done.
Qed.

Lemma live_handles_appended s s' :
  appended s s' -> live_handles s' = live_handles s ++ [length (elems s)].
Proof.
  intros A. unfold live_handles. rewrite (ap_length _ _ A), seq_S, filter_app.
  simpl. f_equal.
  - apply filter_ext_in. intros i Hi%elem_of_seq.
    rewrite (ap_alive _ _ A). rewrite decide_False by lia. done.
  - rewrite filter_cons_True; [done|].
    rewrite (ap_alive _ _ A). by rewrite decide_True.
Qed.

Lemma live_handles_unlinked e s s' :
  unlinked e s s' ->
  live_handles s' = filter (fun i => i <> e) (live_handles s).
Proof.
  intros U. unfold live_handles.
  rewrite (ul_length _ _ _ U), list_filter_filter.
  apply list_filter_iff. intros i. rewrite (ul_alive _ _ _ U).
  destruct (decide (i = e)); split; try done; tauto.
Qed.

Lemma live_handles_same s s' :
  length (elems s') = length (elems s) ->
  (forall i, alive s' i = alive s i) ->
  live_handles s' = live_handles s.
Proof.
  intros Hlen Ha. unfold live_handles. rewrite Hlen.
  apply list_filter_iff. intros i. by rewrite Ha.
Qed.

Lemma filter_all (P : nat -> Prop) `{!forall x, Decision (P x)} (l : list nat) :
  (forall x, x ∈ l -> P x) -> filter P l = l.
Proof.
  induction l as [|a l IH]; intros Hall; [done|].
  rewrite filter_cons_True by apply Hall, list_elem_of_here.
  f_equal. apply IH. intros x Hx. by apply Hall, list_elem_of_further.
Qed.

Lemma length_filter_ne (l : list nat) e :
  NoDup l -> e ∈ l -> S (length (filter (fun i => i <> e) l)) = length l.
Proof.
  induction l as [|a l IH]; intros Hnd Hin; [by apply elem_of_nil in Hin|].
  apply NoDup_cons in Hnd as [Ha Hnd].
  destruct (decide (a = e)) as [->|Hne].
  - rewrite filter_cons_False by tauto. simpl. f_equal.
    f_equal. apply filter_all. intros x Hx ->. done.
  - rewrite filter_cons_True by done. simpl. f_equal. apply IH; [done|].
    apply elem_of_cons in Hin as [->|Hin]; done.
Qed.

Lemma Append_value s v s' :
  wf s -> Append v s = Ok (length (elems s), s') ->
  Value (length (elems s)) s' = Ok (v, s').
Proof.
  intros W. unfold Append, bind, alloc, get_list; simpl.
  destruct (head (lst s)) as [h|] eqn:Eh.
  - destruct (tail (lst s)) as [t|] eqn:Et; [|done].
    pose proof (alive_lt _ _ (wf_tail_alive _ W _ Et)) as Ht.
    destruct (lookup_lt_is_Some_2 (elems s) t Ht) as [y Hy].
    unfold store at 1; simpl. rewrite lookup_app_l, Hy by done.
    unfold store at 1; simpl.
    rewrite list_lookup_insert_ne by lia. rewrite lookup_snoc_new.
    unfold upd_list, ret; simpl. intros [= <-].
    unfold Value, bind, load; simpl.
    rewrite list_lookup_insert_eq; [done|].
    rewrite length_insert, length_app. simpl. lia.
  - unfold upd_list, ret; simpl. intros [= <-].
    unfold Value, bind, load; simpl. by rewrite lookup_snoc_new.
Qed.

Lemma marked_fresh s : marked s (length (elems s)) = false.
Proof. unfold marked. by rewrite lookup_ge_None_2. Qed.

(** X5. In every reachable store [Append] returns a fresh handle whose
    [Value()] is the value given, and puts the element at the end of the
    list: a traversal afterwards yields what it yielded before, followed by
    the new handle. *)
Theorem X5_Append_spec s v fuel :
  reachable s -> S (length (elems s)) <= fuel ->
  exists s' tr,
    Append v s = Ok (length (elems s), s') /\
    elems s !! length (elems s) = None /\
    Value (length (elems s)) s' = Ok (v, s') /\
    live_handles s' = live_handles s ++ [length (elems s)] /\
    traverse fuel s = Ok (tr, s) /\
    traverse fuel s' = Ok (tr ++ [length (elems s)], s').
Proof.
  intros R Hf. pose proof (reachable_wf _ R) as W.
  destruct (Append_wf s v W) as (s' & E & A).
  pose proof (wf_appended _ _ W A) as W'.
  pose proof (live_handles_appended _ _ A) as Hl.
  eexists s', _. split; [done|]. split; [by apply lookup_ge_None_2|].
  split; [by apply Append_value|]. split; [done|].
  split; [apply traverse_wf; [done|lia]|].
  rewrite (traverse_wf s' fuel W') by (rewrite (ap_length _ _ A); lia).
  rewrite Hl. f_equal. f_equal.
  assert (Hm : forall l : list nat,
             filter (fun j => marked s' j = false) l
             = filter (fun j => marked s j = false) l).
  { intros l. apply list_filter_iff. intros i. by rewrite (ap_marked _ _ A). }
  assert (Hn : filter (fun j => marked s' j = false) [length (elems s)]
               = [length (elems s)]).
  { rewrite filter_cons_True; [done|].
    rewrite (ap_marked _ _ A). apply marked_fresh. }
  destruct (live_handles s) as [|h t]; simpl; [done|].
  f_equal. by rewrite filter_app, Hm, Hn.
Qed.

(** X7. In every reachable store, for an element of the list that is not
    the head, lazy and eager removal look the same to a traversal: after
    [RemoveMark] as after [Remove], the traversal yields what it yielded
    before without that element. *)
Theorem X7_removal_hides s e fuel tr :
  reachable s -> e ∈ live_handles s -> head (lst s) <> Some e ->
  length (elems s) <= fuel ->
  traverse fuel s = Ok (tr, s) ->
  exists s1 s2,
    RemoveMark e s = Ok (tt, s1) /\
    traverse fuel s1 = Ok (filter (fun i => i <> e) tr, s1) /\
    Remove e s = Ok (tt, s2) /\
    traverse fuel s2 = Ok (filter (fun i => i <> e) tr, s2).
Proof.
  intros R Hin Hh Hf. pose proof (reachable_wf _ R) as W.
  pose proof Hin as Ae%live_handles_spec.
  rewrite (traverse_wf s fuel W Hf). intros [= <-].
  pose proof (live_handles_head s W) as Hlh.
  destruct (head (lst s)) as [h|] eqn:Eh.
  2:{ rewrite Hlh in Hin. by apply elem_of_nil in Hin. }
  assert (Hne : h <> e) by congruence.
  destruct (lookup_lt_is_Some_2 _ _ (alive_lt _ _ Ae)) as [x Hx].
  pose proof (RemoveMark_Ok _ _ _ Hx) as E1.
  remember (mkStore (lst s) (<[e:=set_remove true x]> (elems s))) as s1 eqn:Hs1.
  clear Hs1.
  destruct (RemoveMark_views _ _ _ E1) as (Hl1 & Hlen1 & _ & _ & Ha1 & Hm1).
  pose proof (wf_RemoveMark _ _ _ W E1) as W1.
  destruct (Remove_alive s e W Ae) as (s2 & E2 & U).
  pose proof (wf_unlinked _ _ _ W Ae U) as W2.
  eexists _, s2. split; [exact E1|]. split; [|split; [exact E2|]].
  - rewrite (traverse_wf s1 fuel W1) by lia.
    rewrite (live_handles_same s s1 Hlen1 Ha1), Hlh.
    rewrite filter_cons_True by done. f_equal. f_equal. f_equal.
    rewrite list_filter_filter. apply list_filter_iff. intros i.
    rewrite Hm1. destruct (decide (i = e)); split; try done; tauto.
  - rewrite (traverse_wf s2 fuel W2) by (rewrite (ul_length _ _ _ U); lia).
    rewrite (live_handles_unlinked _ _ _ U), Hlh.
    rewrite !filter_cons_True by done. f_equal. f_equal. f_equal.
    rewrite !list_filter_filter. apply list_filter_iff. intros i.
    rewrite (ul_marked _ _ _ U). tauto.
Qed.

(** *** What [Len()] reports *)

Lemma wrap_int_range z : (- 2 ^ 63 <= wrap_int z < 2 ^ 63)%Z.
Proof.
  unfold wrap_int.
  pose proof (Z.mod_pos_bound (z + 2 ^ 63) (2 ^ 64) ltac:(lia)). lia.
Qed.

Lemma length_live_handles_le s : length (live_handles s) <= length (elems s).
Proof.
  unfold live_handles.
  etrans; [apply length_filter|]. by rewrite length_seq.
Qed.

Lemma length_live_handles_unlinked e s s' :
  alive s e = true -> unlinked e s s' ->
  S (length (live_handles s')) = length (live_handles s).
Proof.
  intros Ae U. rewrite (live_handles_unlinked _ _ _ U).
  apply length_filter_ne; [apply live_handles_NoDup|by apply live_handles_spec].
Qed.

(** The counter never catches up with the list: it lies between the number
    of elements minus the number of handles and the number of elements
    minus one. *)
Lemma size_bounds s :
  reachable s -> (Z.of_nat (length (elems s)) < 2 ^ 63)%Z ->
  (Z.of_nat (length (live_handles s)) - Z.of_nat (length (elems s))
   <= size (lst s))%Z /\
  (0 < length (elems s) ->
   (size (lst s) <= Z.of_nat (length (live_handles s)) - 1)%Z) /\
  (length (elems s) = 0 -> size (lst s) = 0%Z).
Proof.
  induction 1 as [|s o s' R IH E]; intros Hlen.
  { cbn. repeat split; lia. }
  pose proof (reachable_wf _ R) as W.
  pose proof (length_live_handles_le s) as Hle.
  destruct o as [v|e|e|fuel]; simpl in E.
  - unfold bind in E. destruct (Append_wf s v W) as (s1 & E1 & A).
    rewrite E1 in E. injection E as <-.
    pose proof (live_handles_appended _ _ A) as Hl.
    pose proof (ap_length _ _ A) as Hl'. pose proof (ap_size _ _ A) as Hs.
    rewrite Hl, length_app, Hl', Hs in *. simpl length in *.
    destruct IH as (I1 & I2 & I3); [lia|].
    pose proof (live_handles_head s W) as Hh.
    destruct (head (lst s)) as [h|] eqn:Eh.
    + pose proof (alive_lt _ _ (wf_head_alive _ W _ Eh)) as Hpos.
      specialize (I2 ltac:(lia)). rewrite wrap_int_small by lia. lia.
    + rewrite Hh in *. simpl length in *.
      destruct (length (elems s)) as [|n] eqn:En.
      * specialize (I3 eq_refl). lia.
      * specialize (I2 ltac:(lia)). lia.
  - destruct (alive s e) eqn:Ae.
    + destruct (Remove_alive s e W Ae) as (s1 & E1 & U).
      rewrite E1 in E. injection E as <-.
      pose proof (length_live_handles_unlinked _ _ _ Ae U) as Hl.
      pose proof (alive_lt _ _ Ae) as He.
      rewrite (ul_length _ _ _ U), (ul_size _ _ _ U) in *.
      destruct IH as (I1 & I2 & I3); [lia|].
      specialize (I2 ltac:(lia)). rewrite wrap_int_small by lia. lia.
    + destruct (Remove_inv _ _ _ E) as (x & Hx & Hs).
      unfold alive in Ae. rewrite Hx in Ae.
      rewrite Hs in * by (by destruct (removed x)). by apply IH.
  - destruct (RemoveMark_views _ _ _ E) as (Hl & Hlen' & _ & _ & Ha & _).
    rewrite (live_handles_same s s' Hlen' Ha), Hlen', Hl in *. by apply IH.
  - rewrite RemoveMarked_inert in E. injection E as <-. by apply IH.
Qed.

(** X8. In every reachable store with fewer than 2^63 handles, once anything
    has been appended [Len()] is strictly less than the number of elements
    in the list; it is never lower than that number minus the number of
    handles ever given out. *)
Theorem X8_Len_undercounts s :
  reachable s -> (Z.of_nat (length (elems s)) < 2 ^ 63)%Z ->
  0 < length (elems s) ->
  exists n, Len s = Ok (n, s) /\
    (Z.of_nat (length (live_handles s)) - Z.of_nat (length (elems s)) <= n
     < Z.of_nat (length (live_handles s)))%Z.
Proof.
  intros R Hlen Hpos. destruct (size_bounds s R Hlen) as (I1 & I2 & _).
  exists (size (lst s)). split; [done|]. specialize (I2 Hpos). lia.
Qed.

(** *** One pass of the loop body of [RemoveMarked] *)

Lemma ToRemove_marked i s :
  i < length (elems s) -> ToRemove i s = Ok (marked s i, s).
Proof.
  intros Hi. destruct (lookup_lt_is_Some_2 _ _ Hi) as [x Hx].
  unfold ToRemove, bind, ret. by rewrite (load_Ok _ _ _ Hx), (marked_lookup _ _ _ Hx).
Qed.

(** From an unmarked element on, a pass meets only unmarked elements and
    removes nothing. *)
Lemma sweep_unmarked s :
  wf s ->
  forall fuel e done,
    (forall i, e = Some i ->
       marked s i = false /\ i < length (elems s) /\
       length (elems s) - i <= fuel) ->
    sweep fuel e done s = Ok (done, s).
Proof.
  intros W fuel. induction fuel as [|fuel IH]; intros [i|] d He; try done.
  - destruct (He i eq_refl) as (_ & ? & ?). lia.
  - destruct (He i eq_refl) as (Mi & Hi & Hf).
    simpl. unfold bind. rewrite (ToRemove_marked i s Hi), Mi. unfold ret.
    destruct (Next_total s (S fuel) i W Hi Hf) as (r & -> & Hr).
    apply IH. intros j Ej. destruct (Hr j Ej). repeat split; [done|lia..].
Qed.

(** X9. One pass of the loop body of [RemoveMarked], had it been entered in
    a reachable store: it returns; when the head is marked it removes the
    head, and only the head, and clears [done]; when the head is unmarked or
    the list is empty it changes nothing and leaves [done] as it was.  The
    marked elements after the head are stepped over by [Next()] and never
    reach [Remove()]. *)
Theorem X9_sweep_pass s fuel done :
  reachable s -> length (elems s) <= fuel ->
  (head (lst s) = None -> sweep fuel None done s = Ok (done, s)) /\
  (forall h, head (lst s) = Some h -> marked s h = false ->
     sweep fuel (Some h) done s = Ok (done, s)) /\
  (forall h, head (lst s) = Some h -> marked s h = true ->
     exists s', Remove h s = Ok (tt, s') /\
       sweep fuel (Some h) done s = Ok (false, s') /\
       live_handles s' = tl (live_handles s)).
Proof.
  intros R Hf. pose proof (reachable_wf _ R) as W. split; [|split].
  - intros _. by destruct fuel.
  - intros h Eh Mh. apply sweep_unmarked; [done|]. intros i [= <-].
    pose proof (alive_lt _ _ (wf_head_alive _ W _ Eh)). repeat split; [done|lia..].
  - intros h Eh Mh. pose proof (wf_head_alive _ W _ Eh) as Ah.
    pose proof (alive_lt _ _ Ah) as Hh.
    destruct (Remove_alive s h W Ah) as (s' & E & U).
    pose proof (wf_unlinked _ _ _ W Ah U) as W'.
    pose proof (ul_length _ _ _ U) as Hlen.
    exists s'. split; [done|]. split.
    + destruct fuel as [|fuel]; [lia|]. simpl. unfold bind.
      rewrite (ToRemove_marked h s Hh), Mh, E. unfold ret.
      destruct (Next_total s' (S fuel) h W') as (r & -> & Hr); [lia..|].
      apply sweep_unmarked; [done|]. intros j Ej. destruct (Hr j Ej).
      repeat split; [done|lia..].
    + rewrite (live_handles_unlinked _ _ _ U), (live_handles_head s W), Eh.
      rewrite filter_cons_False by tauto. simpl. apply filter_all.
      intros i Hi ->.
      pose proof (live_handles_NoDup s) as Hnd.
      rewrite (live_handles_head s W), Eh in Hnd.
      by apply NoDup_cons in Hnd as [? _].
Qed.

(** *** [Append] followed by [Remove] of the new element *)

Lemma size_in_range s :
  reachable s -> (- 2 ^ 63 <= size (lst s) < 2 ^ 63)%Z.
Proof.
  induction 1 as [|s o s' R IH E]; [simpl; lia|].
  pose proof (reachable_wf _ R) as W.
  destruct o as [v|e|e|fuel]; simpl in E.
  - unfold bind in E. destruct (Append_wf s v W) as (s1 & E1 & A).
    rewrite E1 in E. injection E as <-. rewrite (ap_size _ _ A).
    destruct (head (lst s)); [apply wrap_int_range|done].
  - destruct (alive s e) eqn:Ae.
    + destruct (Remove_alive s e W Ae) as (s1 & E1 & U).
      rewrite E1 in E. injection E as <-. rewrite (ul_size _ _ _ U).
      apply wrap_int_range.
    + destruct (Remove_inv _ _ _ E) as (x & Hx & Hs).
      unfold alive in Ae. rewrite Hx in Ae.
      by rewrite Hs by (by destruct (removed x)).
  - destruct (RemoveMark_views _ _ _ E) as (-> & _). done.
  - rewrite RemoveMarked_inert in E. by injection E as <-.
Qed.

Lemma nxt_fresh s : nxt s (length (elems s)) = None.
Proof. unfold nxt. by rewrite lookup_ge_None_2. Qed.

(** X10. In every reachable store, [Append] followed by [Remove] of the
    handle it returned puts the list back: head, tail, the elements of the
    list and the links and marks of every earlier handle are as before.
    [Len()] is as before when the list was not empty, and one less (wrapping)
    when it was. *)
Theorem X10_Append_then_Remove s v :
  reachable s ->
  exists s1 s2,
    Append v s = Ok (length (elems s), s1) /\
    Remove (length (elems s)) s1 = Ok (tt, s2) /\
    head (lst s2) = head (lst s) /\
    tail (lst s2) = tail (lst s) /\
    live_handles s2 = live_handles s /\
    (forall i, i < length (elems s) ->
       nxt s2 i = nxt s i /\ prv s2 i = prv s i /\ marked s2 i = marked s i) /\
    size (lst s2) =
      match head (lst s) with
      | None => wrap_int (size (lst s) - 1)
      | Some _ => size (lst s)
      end.
Proof.
  intros R. pose proof (reachable_wf _ R) as W.
  destruct (Append_wf s v W) as (s1 & E1 & A).
  pose proof (wf_appended _ _ W A) as W1.
  set (e := length (elems s)) in *.
  assert (Ae : alive s1 e = true).
  { rewrite (ap_alive _ _ A). by rewrite decide_True. }
  destruct (Remove_alive s1 e W1 Ae) as (s2 & E2 & U).
  assert (Hp : prv s1 e = tail (lst s)).
  { rewrite (ap_prv _ _ A). by rewrite decide_True. }
  assert (Hn : nxt s1 e = None).
  { rewrite (ap_nxt _ _ A). rewrite decide_False; [apply nxt_fresh|].
    intros Ht. symmetry in Ht.
    pose proof (alive_lt _ _ (wf_tail_alive _ W _ Ht)). unfold e in *. lia. }
  exists s1, s2. split; [done|]. split; [done|]. split; [|split; [|split; [|split]]].
  - rewrite (ul_head _ _ _ U), Hp, Hn, (ap_head _ _ A).
    destruct (tail (lst s)) as [t|] eqn:Et.
    + destruct (head (lst s)) eqn:Eh; [done|].
      apply (wf_head_tail _ W) in Eh. congruence.
    + symmetry. by apply (wf_head_tail _ W).
  - by rewrite (ul_tail _ _ _ U), Hn, Hp.
  - rewrite (live_handles_unlinked _ _ _ U), (live_handles_appended _ _ A).
    rewrite filter_app, filter_cons_False by tauto. simpl.
    rewrite app_nil_r. apply filter_all. intros i Hi%live_handles_spec.
    pose proof (alive_lt _ _ Hi). unfold e in *. lia.
  - intros i Hi. split; [|split].
    + rewrite (ul_nxt _ _ _ U), Hp, Hn.
      destruct (decide (Some i = tail (lst s))) as [Hd|Hd].
      * symmetry in Hd. pose proof (wf_tail_alive _ W _ Hd) as Ai.
        symmetry. by apply (wf_tail _ W _ Ai).
      * rewrite (ap_nxt _ _ A). by rewrite decide_False.
    + rewrite (ul_prv _ _ _ U), Hn. rewrite decide_False by done.
      rewrite (ap_prv _ _ A). rewrite decide_False; [done|]. unfold e. lia.
    + by rewrite (ul_marked _ _ _ U), (ap_marked _ _ A).
  - rewrite (ul_size _ _ _ U), (ap_size _ _ A).
    destruct (head (lst s)); [|done].
    replace (wrap_int (size (lst s) + 1) - 1)%Z
      with (wrap_int (size (lst s) + 1) + -1)%Z by lia.
    rewrite wrap_int_add_l.
    replace (size (lst s) + 1 + -1)%Z with (size (lst s)) by lia.
    apply wrap_int_small, size_in_range, R.
Qed.

(** *** Locks, stale handles, the ends of the list, payloads *)


Lemma removed_links_exec o s s' e :
  wf s -> alive s e = false -> e < length (elems s) ->
  exec o s = Ok (tt, s') ->
  alive s' e = false /\ nxt s' e = nxt s e /\ prv s' e = prv s e.
Proof.
  intros W Ae He E. destruct o as [v|x|x|fuel]; simpl in E.
  - unfold bind in E. destruct (Append_wf s v W) as (s1 & E1 & A).
    rewrite E1 in E. injection E as <-.
    rewrite (ap_alive _ _ A), (ap_nxt _ _ A), (ap_prv _ _ A).
    split; [by rewrite decide_False by lia|].
    split; [|by rewrite decide_False by lia].
    rewrite decide_False; [done|]. intros Ht. symmetry in Ht.
    apply (wf_tail_alive _ W) in Ht. congruence.
  - destruct (alive s x) eqn:Ax.
    + destruct (Remove_alive s x W Ax) as (s1 & E1 & U).
      rewrite E1 in E. injection E as <-.
      rewrite (ul_alive _ _ _ U), (ul_nxt _ _ _ U), (ul_prv _ _ _ U).
      split; [by destruct (decide (e = x))|]. split.
      * rewrite decide_False; [done|]. intros Hd. symmetry in Hd.
        destruct (wf_prv_alive _ W _ _ Ax Hd). congruence.
      * rewrite decide_False; [done|]. intros Hd. symmetry in Hd.
        destruct (wf_nxt_alive _ W _ _ Ax Hd). congruence.
    + destruct (Remove_inv _ _ _ E) as (y & Hy & Hs).
      unfold alive in Ax. rewrite Hy in Ax.
      by rewrite Hs by (by destruct (removed y)).
  - destruct (RemoveMark_views _ _ _ E) as (_ & _ & Hn & Hp & Ha & _).
    by rewrite Hn, Hp, Ha.
  - rewrite RemoveMarked_inert in E. by injection E as <-.
Qed.

Lemma exec_length o s s' :
  wf s -> exec o s = Ok (tt, s') -> length (elems s) <= length (elems s').
Proof.
  intros W E. destruct o as [v|x|x|fuel]; simpl in E.
  - unfold bind in E. destruct (Append_wf s v W) as (s1 & E1 & A).
    rewrite E1 in E. injection E as <-. rewrite (ap_length _ _ A). lia.
  - destruct (alive s x) eqn:Ax.
    + destruct (Remove_alive s x W Ax) as (s1 & E1 & U).
      rewrite E1 in E. injection E as <-. by rewrite (ul_length _ _ _ U).
    + destruct (Remove_inv _ _ _ E) as (y & Hy & Hs).
      unfold alive in Ax. rewrite Hy in Ax.
      by rewrite Hs by (by destruct (removed y)).
  - destruct (RemoveMark_views _ _ _ E) as (_ & -> & _). done.
  - rewrite RemoveMarked_inert in E. by injection E as <-.
Qed.

(** A lazy mark is set by [RemoveMark] on that handle and by nothing else. *)
Lemma marked_exec o s s' e :
  wf s -> exec o s = Ok (tt, s') ->
  (marked s' e = true <-> marked s e = true \/ o = OpRemoveMark e).
Proof.
  intros W E. destruct o as [v|x|x|fuel]; simpl in E.
  - unfold bind in E. destruct (Append_wf s v W) as (s1 & E1 & A).
    rewrite E1 in E. injection E as <-. rewrite (ap_marked _ _ A).
    split; [by left|]. by intros [?|?].
  - assert (Hm : marked s' e = marked s e).
    { destruct (alive s x) eqn:Ax.
      - destruct (Remove_alive s x W Ax) as (s1 & E1 & U).
        rewrite E1 in E. injection E as <-. apply (ul_marked _ _ _ U).
      - destruct (Remove_inv _ _ _ E) as (y & Hy & Hs).
        unfold alive in Ax. rewrite Hy in Ax.
        by rewrite Hs by (by destruct (removed y)). }
    rewrite Hm. split; [by left|]. by intros [?|?].
  - destruct (RemoveMark_views _ _ _ E) as (_ & _ & _ & _ & _ & Hm).
    rewrite Hm. destruct (decide (e = x)) as [->|Hne].
    + split; [by right|done].
    + split; [by left|]. intros [?|[= ?]]; [done|congruence].
  - rewrite RemoveMarked_inert in E. injection E as <-.
    split; [by left|]. by intros [?|?].
Qed.

(** X12. Once an element has been removed, later calls leave it removed and
    leave its payload and its next and prev links as they were: across any
    program run from a reachable store, the only field of it that can still
    change is its lazy mark, which is set exactly when it was set before or
    the program calls [RemoveMark] on that handle. *)
Theorem X12_removed_links_frozen os :
  forall s s' e,
    reachable s -> e < length (elems s) -> alive s e = false ->
    run os s = Ok (tt, s') ->
    alive s' e = false /\ nxt s' e = nxt s e /\ prv s' e = prv s e /\
    (forall v, Value e s = Ok (v, s) -> Value e s' = Ok (v, s')) /\
    (marked s' e = true <-> marked s e = true \/ OpRemoveMark e ∈ os).
Proof.
  induction os as [|o os IH]; intros s s' e R He Ae; simpl.
  - intros [= <-]. do 4 (split; [done|]).
    split; [by left|]. intros [?|Hin]; [done|by apply elem_of_nil in Hin].
  - unfold bind. destruct (exec o s) as [[[] s1]| | |] eqn:E; try done.
    intros E'. pose proof (reachable_wf _ R) as W.
    destruct (removed_links_exec o s s1 e W Ae He E) as (A1 & N1 & P1).
    pose proof (exec_length o s s1 W E) as Hl.
    pose proof (marked_exec o s s1 e W E) as M1.
    destruct (IH s1 s' e) as (A2 & N2 & P2 & V2 & M2);
      [by eapply reach_step|lia|done|done|].
    split; [done|]. split; [by rewrite N2, N1|]. split; [by rewrite P2, P1|].
    split.
    + intros v Hv. apply V2. unfold Value, bind, load, ret in *.
      destruct (elems s !! e) as [x|] eqn:Hx; [|done].
      destruct (kept_exec o s tt s1 E e x Hx) as (x' & -> & Hv' & _).
      congruence.
    + rewrite M2, M1, elem_of_cons. split.
      * intros [[?| ->]|?]; [by left|right; by left|right; by right].
      * intros [?|[ <- |?]]; [left; by left|left; by right|by right].
Qed.

Lemma last_filter_seq (P : nat -> Prop) `{!forall x, Decision (P x)} n t :
  t < n -> P t -> (forall i, t < i -> i < n -> ~ P i) ->
  last (filter P (seq 0 n)) = Some t.
Proof.
  induction n as [|n IH]; intros Ht Pt Hno; [lia|].
  rewrite seq_S, filter_app. simpl.
  destruct (decide (t = n)) as [->|Hne].
  - rewrite filter_cons_True by done. apply last_snoc.
  - rewrite filter_cons_False by (apply Hno; lia).
    rewrite filter_nil, app_nil_r. apply IH; [lia|done|].
    intros i ? ?. apply Hno; lia.
Qed.

Lemma tail_last_wf s : wf s -> tail (lst s) = last (live_handles s).
Proof.
  intros W. destruct (tail (lst s)) as [t|] eqn:Et.
  - pose proof (wf_tail_alive _ W _ Et) as At.
    symmetry. apply last_filter_seq; [by apply alive_lt|done|].
    intros i Hi _ Ai. apply (wf_tail _ W _ At) in Et.
    pose proof (none_after s t W At Et i Ai). lia.
  - apply (wf_head_tail _ W) in Et.
    pose proof (live_handles_head s W) as Hl. rewrite Et in Hl. by rewrite Hl.
Qed.

Lemma head_first_wf s : wf s -> head (lst s) = hd_error (live_handles s).
Proof.
  intros W. rewrite (live_handles_head s W). by destruct (head (lst s)).
Qed.

(** X6. In every reachable store [Remove] on an element of the list returns
    and unlinks exactly that element: the elements of the list are the old
    ones without it, in the same order; head and tail are the first and the
    last of them; the next link of each is the one after it and the prev
    link points back; a traversal no longer yields the element.  No lazy
    mark changes, and [Len()] is lowered by one (wrapping). *)
Theorem X6_Remove_spec s e fuel :
  reachable s -> e ∈ live_handles s -> length (elems s) <= fuel ->
  exists s',
    Remove e s = Ok (tt, s') /\
    live_handles s' = filter (fun i => i <> e) (live_handles s) /\
    head (lst s') = hd_error (filter (fun i => i <> e) (live_handles s)) /\
    tail (lst s') = last (filter (fun i => i <> e) (live_handles s)) /\
    (forall i, i ∈ live_handles s' ->
       nxt s' i = hd_error (live_from s' (S i))) /\
    (forall i j, i ∈ live_handles s' -> nxt s' i = Some j ->
       prv s' j = Some i) /\
    (forall h, head (lst s') = Some h -> prv s' h = None) /\
    traverse fuel s' =
      Ok (match filter (fun i => i <> e) (live_handles s) with
          | [] => []
          | h :: t => h :: filter (fun j => marked s j = false) t
          end, s') /\
    (forall i, marked s' i = marked s i) /\
    Len s' = Ok (wrap_int (size (lst s) - 1), s').
Proof.
  intros R Ae%live_handles_spec Hf. pose proof (reachable_wf _ R) as W.
  destruct (Remove_alive s e W Ae) as (s' & E & U).
  pose proof (wf_unlinked _ _ _ W Ae U) as W'.
  pose proof (live_handles_unlinked _ _ _ U) as Hl.
  exists s'. split; [done|]. split; [done|].
  split; [by rewrite <- Hl; apply head_first_wf|].
  split; [by rewrite <- Hl; apply tail_last_wf|].
  split.
  { intros i Ai%live_handles_spec. rewrite (live_from_next s' i W' Ai).
    by destruct (nxt s' i). }
  split.
  { intros i j Ai%live_handles_spec Hn.
    by destruct (wf_nxt_alive _ W' _ _ Ai Hn). }
  split.
  { intros h Hh. pose proof (wf_head_alive _ W' _ Hh) as Ah.
    by apply (wf_head _ W' _ Ah). }
  split.
  { rewrite (traverse_wf s' fuel W') by (rewrite (ul_length _ _ _ U); lia).
    rewrite Hl. f_equal. f_equal.
    destruct (filter (fun i => i <> e) (live_handles s)) as [|h t]; [done|].
    f_equal. apply list_filter_iff. intros i. by rewrite (ul_marked _ _ _ U). }
  split; [apply (ul_marked _ _ _ U)|].
  unfold Len, bind, get_list, ret. by rewrite (ul_size _ _ _ U).
Qed.

(** X13. In every reachable store [Head()] is the first element of the list
    and the [tail] field is its last element; both are nil exactly when the
    list is empty. *)
Theorem X13_head_first_tail_last s :
  reachable s ->
  Head s = Ok (hd_error (live_handles s), s) /\
  tail (lst s) = last (live_handles s).
Proof.
  intros R. pose proof (reachable_wf _ R) as W.
  pose proof (live_handles_head s W) as Hl. split.
  - unfold Head, bind, get_list, ret. rewrite Hl. by destruct (head (lst s)).
  - destruct (tail (lst s)) as [t|] eqn:Et.
    + pose proof (wf_tail_alive _ W _ Et) as At.
      symmetry. apply last_filter_seq; [by apply alive_lt|done|].
      intros i Hi _ Ai. apply (wf_tail _ W _ At) in Et.
      pose proof (none_after s t W At Et i Ai). lia.
    + apply (wf_head_tail _ W) in Et. rewrite Et in Hl. by rewrite Hl.
Qed.

(** X14. [Value()] on the handle [Append] returned gives back the value
    appended, whatever calls are made on the list afterwards, removal of the
    element included. *)
Theorem X14_Value_of_Append s v e s1 os s2 :
  reachable s -> Append v s = Ok (e, s1) -> run os s1 = Ok (tt, s2) ->
  Value e s2 = Ok (v, s2).
Proof.
  intros R E1 E2. pose proof (reachable_wf _ R) as W.
  destruct (Append_wf s v W) as (s1' & E1' & _).
  rewrite E1 in E1'. injection E1' as -> <-.
  pose proof (Append_value s v s1 W E1) as Hv.
  unfold Value, bind, load in Hv.
  destruct (elems s1 !! length (elems s)) as [x|] eqn:Hx; [|done].
  injection Hv as Hv.
  destruct (kept_run os s1 tt s2 E2 _ _ Hx) as (x' & Hx' & Hv' & _).
  unfold Value, bind, load, ret. rewrite Hx'. congruence.
Qed.

End WithValue.

Arguments Element V : clear implicits.
Arguments List : clear implicits.
Arguments Store V : clear implicits.
Arguments M V A : clear implicits.
Arguments op V : clear implicits.

(** ** The claims at concrete programs *)

(** Calling [Remove] twice on the only element of a list. *)
Lemma C6_Remove_twice_witness :
  Remove 0 (state_after [OpAppend 7]) =
    Ok (tt, state_after [OpAppend 7; OpRemove 0]) /\
  Remove 0 (state_after [OpAppend 7; OpRemove 0]) =
    Ok (tt, state_after [OpAppend 7; OpRemove 0]).
Proof.
  split; [reflexivity|].
  apply (proj2 (C6_Remove_twice 0 (state_after [OpAppend 7]))). reflexivity.
Defined.

(** Marking the second of three elements, twice. *)
Lemma C8_RemoveMark_frame_witness :
  RemoveMark 1 (state_after [OpAppend 1; OpAppend 2; OpAppend 3]) =
    Ok (tt, state_after [OpAppend 1; OpAppend 2; OpAppend 3; OpRemoveMark 1]) /\
  lst (state_after [OpAppend 1; OpAppend 2; OpAppend 3; OpRemoveMark 1]) =
    lst (state_after [OpAppend 1; OpAppend 2; OpAppend 3]) /\
  RemoveMark 1 (state_after [OpAppend 1; OpAppend 2; OpAppend 3; OpRemoveMark 1]) =
    Ok (tt, state_after [OpAppend 1; OpAppend 2; OpAppend 3; OpRemoveMark 1]).
Proof.
  split; [reflexivity|].
  pose proof (C8_RemoveMark_frame 1
                (state_after [OpAppend 1; OpAppend 2; OpAppend 3])
                (state_after [OpAppend 1; OpAppend 2; OpAppend 3; OpRemoveMark 1])
                eq_refl) as H.
  split; [exact (proj1 H)|exact (proj2 (proj2 (proj2 (proj2 H))))].
Defined.

(** The invariant across [Remove] on the only element. *)
Lemma C7_head_tail_invariant_witness :
  reachable (state_after [OpAppend 7]) /\
  head_tail_inv (state_after [OpAppend 7; OpRemove 0]).
Proof.
  assert (R : reachable (state_after [OpAppend 7])).
  { eapply reachable_state_after. reflexivity. }
  split; [exact R|].
  apply (proj2 (proj2 (proj2 C7_head_tail_invariant
                         (state_after [OpAppend 7]) (OpRemove 0) R))).
  reflexivity.
Defined.

(** [Remove] on the head of a list of three. *)
Lemma C5_Remove_by_position_witness :
  reachable (state_after [OpAppend 1; OpAppend 2; OpAppend 3]) /\
  2 <= length (live_handles (state_after [OpAppend 1; OpAppend 2; OpAppend 3])) /\
  exists n s',
    nxt (state_after [OpAppend 1; OpAppend 2; OpAppend 3]) 0 = Some n /\
    Remove 0 (state_after [OpAppend 1; OpAppend 2; OpAppend 3]) = Ok (tt, s') /\
    head (lst s') = Some n /\ prv s' n = None.
Proof.
  assert (R : reachable (state_after [OpAppend 1; OpAppend 2; OpAppend 3])).
  { eapply reachable_state_after. reflexivity. }
  assert (H2 : 2 <= length (live_handles
                              (state_after [OpAppend 1; OpAppend 2; OpAppend 3]))).
  { vm_compute. lia. }
  split; [exact R|]. split; [exact H2|].
  apply (proj1 (C5_Remove_by_position _ R H2) 0). reflexivity.
Defined.

(** A traversal of three elements with the second one marked. *)
Lemma C3_traversal_skips_marked_witness :
  reachable (state_after [OpAppend 1; OpAppend 2; OpAppend 3; OpRemoveMark 1]) /\
  exists tr,
    traverse 3 (state_after [OpAppend 1; OpAppend 2; OpAppend 3; OpRemoveMark 1])
    = Ok (tr, state_after [OpAppend 1; OpAppend 2; OpAppend 3; OpRemoveMark 1])
    /\ 1 ∉ tr.
Proof.
  assert (R : reachable
                (state_after [OpAppend 1; OpAppend 2; OpAppend 3; OpRemoveMark 1])).
  { eapply reachable_state_after. reflexivity. }
  split; [exact R|].
  apply (C3_traversal_skips_marked _ 1 3 R).
  - simpl. lia.
  - reflexivity.
  - reflexivity.
  - simpl. discriminate.
Defined.

(** [Next()] on the second of three elements after its removal. *)
Lemma C10_Next_after_Remove_witness :
  reachable (state_after [OpAppend 1; OpAppend 2; OpAppend 3]) /\
  exists s' r,
    Remove 1 (state_after [OpAppend 1; OpAppend 2; OpAppend 3]) = Ok (tt, s') /\
    nxt s' 1 = nxt (state_after [OpAppend 1; OpAppend 2; OpAppend 3]) 1 /\
    prv s' 1 = prv (state_after [OpAppend 1; OpAppend 2; OpAppend 3]) 1 /\
    Next 3 1 s' = Ok (r, s') /\
    r = Some 2.
Proof.
  assert (R : reachable (state_after [OpAppend 1; OpAppend 2; OpAppend 3])).
  { eapply reachable_state_after. reflexivity. }
  split; [exact R|].
  assert (He : 1 < length (elems (state_after [OpAppend 1; OpAppend 2;
                                               OpAppend 3])))
    by (simpl; lia).
  assert (Hf : length (elems (state_after [OpAppend 1; OpAppend 2;
                                           OpAppend 3])) <= 3)
    by (simpl; lia).
  destruct (C10_Next_after_Remove _ 1 3 R He Hf)
    as (s' & r & E & Hn & Hp & En & _ & _ & _ & _ & Hs & _).
  exists s', r. split; [exact E|]. split; [exact Hn|]. split; [exact Hp|].
  split; [exact En|]. apply (Hs 2); reflexivity.
Defined.

(** C3 as stated fails: after one append and a mark on that element, the
    element is marked and not removed, and the traversal yields it, because
    [Head()] returns it. *)
Lemma C3_counterexample :
  ~ (forall (s : Store nat) (X fuel : nat) (tr : list nat),
       reachable s -> marked s X = true -> alive s X = true ->
       traverse fuel s = Ok (tr, s) -> X ∉ tr).
Proof.
  intros H.
  assert (R : reachable (state_after [OpAppend 7; OpRemoveMark 0])).
  { eapply reachable_state_after. reflexivity. }
  apply (H (state_after [OpAppend 7; OpRemoveMark 0]) 0 1 [0] R);
    try reflexivity.
  apply list_elem_of_here.
Qed.


(** ** The further properties at concrete programs *)

(** A marked element is removed: its payload and its mark are still there. *)
Lemma X1_nothing_taken_back_witness :
  run [OpRemove 0] (state_after [OpAppend 7; OpRemoveMark 0]) =
    Ok (tt, state_after [OpAppend 7; OpRemoveMark 0; OpRemove 0]) /\
  exists x',
    elems (state_after [OpAppend 7; OpRemoveMark 0; OpRemove 0]) !! 0 = Some x' /\
    value x' = 7 /\
    (true = true -> remove x' = true) /\
    (false = true -> removed x' = true).
Proof.
  split; [reflexivity|].
  exact (X1_nothing_taken_back [OpRemove 0]
           (state_after [OpAppend 7; OpRemoveMark 0])
           (state_after [OpAppend 7; OpRemoveMark 0; OpRemove 0])
           eq_refl 0 (mkElement 7 true false None None) eq_refl).
Defined.

(** [Next()] on the first of three elements returns the store it was given. *)
Lemma X2_readers_change_nothing_witness :
  Next 3 0 (state_after [OpAppend 1; OpAppend 2; OpAppend 3]) =
    Ok (Some 1, state_after [OpAppend 1; OpAppend 2; OpAppend 3]) /\
  state_after [OpAppend 1; OpAppend 2; OpAppend 3] =
    state_after [OpAppend 1; OpAppend 2; OpAppend 3].
Proof.
  split; [reflexivity|].
  apply (proj1 (proj2 (proj2 (proj2 (proj2
           (X2_readers_change_nothing
              (state_after [OpAppend 1; OpAppend 2; OpAppend 3])
              (state_after [OpAppend 1; OpAppend 2; OpAppend 3]))))))
           3 0 (Some 1)).
  reflexivity.
Defined.

(** Three elements with the first two marked: the traversal yields the
    first and the third. *)
Lemma X3_traverse_spec_witness :
  reachable (state_after [OpAppend 1; OpAppend 2; OpAppend 3;
                          OpRemoveMark 0; OpRemoveMark 1]) /\
  traverse 3 (state_after [OpAppend 1; OpAppend 2; OpAppend 3;
                           OpRemoveMark 0; OpRemoveMark 1]) =
    Ok ([0; 2], state_after [OpAppend 1; OpAppend 2; OpAppend 3;
                             OpRemoveMark 0; OpRemoveMark 1]).
Proof.
  assert (R : reachable (state_after [OpAppend 1; OpAppend 2; OpAppend 3;
                                      OpRemoveMark 0; OpRemoveMark 1])).
  { eapply reachable_state_after. reflexivity. }
  split; [exact R|].
  apply (X3_traverse_spec _ 3 R). simpl. lia.
Defined.

(** [Next()] over a marked element. *)
Lemma X4_Next_spec_witness :
  reachable (state_after [OpAppend 1; OpAppend 2; OpAppend 3; OpRemoveMark 1]) /\
  Next 3 0 (state_after [OpAppend 1; OpAppend 2; OpAppend 3; OpRemoveMark 1]) =
    Ok (Some 2,
        state_after [OpAppend 1; OpAppend 2; OpAppend 3; OpRemoveMark 1]).
Proof.
  assert (R : reachable (state_after [OpAppend 1; OpAppend 2; OpAppend 3;
                                      OpRemoveMark 1])).
  { eapply reachable_state_after. reflexivity. }
  split; [exact R|].
  apply (X4_Next_spec _ 0 3 R).
  - apply list_elem_of_here.
  - simpl. lia.
Defined.

(** A third append. *)
Lemma X5_Append_spec_witness :
  reachable (state_after [OpAppend 1; OpAppend 2]) /\
  exists s' tr,
    Append 3 (state_after [OpAppend 1; OpAppend 2]) = Ok (2, s') /\
    elems (state_after [OpAppend 1; OpAppend 2]) !! 2 = None /\
    Value 2 s' = Ok (3, s') /\
    live_handles s' = live_handles (state_after [OpAppend 1; OpAppend 2]) ++ [2] /\
    traverse 3 (state_after [OpAppend 1; OpAppend 2])
      = Ok (tr, state_after [OpAppend 1; OpAppend 2]) /\
    traverse 3 s' = Ok (tr ++ [2], s').
Proof.
  assert (R : reachable (state_after [OpAppend 1; OpAppend 2])).
  { eapply reachable_state_after. reflexivity. }
  split; [exact R|].
  apply (X5_Append_spec _ 3 3 R). simpl. lia.
Defined.

(** [Remove] on the second of three elements. *)
Lemma X6_Remove_spec_witness :
  reachable (state_after [OpAppend 1; OpAppend 2; OpAppend 3]) /\
  exists s',
    Remove 1 (state_after [OpAppend 1; OpAppend 2; OpAppend 3]) = Ok (tt, s') /\
    live_handles s' = [0; 2] /\
    head (lst s') = Some 0 /\
    tail (lst s') = Some 2 /\
    traverse 3 s' = Ok ([0; 2], s') /\
    Len s' = Ok (1%Z, s').
Proof.
  assert (R : reachable (state_after [OpAppend 1; OpAppend 2; OpAppend 3])).
  { eapply reachable_state_after. reflexivity. }
  split; [exact R|].
  assert (Hin : 1 ∈ live_handles
                      (state_after [OpAppend 1; OpAppend 2; OpAppend 3]))
    by apply list_elem_of_further, list_elem_of_here.
  assert (Hf : length (elems (state_after [OpAppend 1; OpAppend 2;
                                           OpAppend 3])) <= 3)
    by (simpl; lia).
  destruct (X6_Remove_spec _ 1 3 R Hin Hf)
    as (s' & E & Hl & Hh & Ht & _ & _ & _ & Htr & _ & HL).
  exists s'. split; [exact E|]. split; [exact Hl|]. split; [exact Hh|].
  split; [exact Ht|]. split; [exact Htr|exact HL].
Defined.

(** Lazy and eager removal of the second of three elements. *)
Lemma X7_removal_hides_witness :
  reachable (state_after [OpAppend 1; OpAppend 2; OpAppend 3]) /\
  exists s1 s2,
    RemoveMark 1 (state_after [OpAppend 1; OpAppend 2; OpAppend 3])
      = Ok (tt, s1) /\
    traverse 3 s1 = Ok (filter (fun i => i <> 1) [0; 1; 2], s1) /\
    Remove 1 (state_after [OpAppend 1; OpAppend 2; OpAppend 3])
      = Ok (tt, s2) /\
    traverse 3 s2 = Ok (filter (fun i => i <> 1) [0; 1; 2], s2).
Proof.
  assert (R : reachable (state_after [OpAppend 1; OpAppend 2; OpAppend 3])).
  { eapply reachable_state_after. reflexivity. }
  split; [exact R|].
  apply (X7_removal_hides _ 1 3 [0; 1; 2] R).
  - apply list_elem_of_further, list_elem_of_here.
  - simpl. discriminate.
  - simpl. lia.
  - reflexivity.
Defined.

(** [Len()] after three appends and one removal. *)
Lemma X8_Len_undercounts_witness :
  reachable (state_after [OpAppend 1; OpAppend 2; OpAppend 3; OpRemove 1]) /\
  exists n,
    Len (state_after [OpAppend 1; OpAppend 2; OpAppend 3; OpRemove 1]) =
      Ok (n, state_after [OpAppend 1; OpAppend 2; OpAppend 3; OpRemove 1]) /\
    (Z.of_nat (length (live_handles
        (state_after [OpAppend 1; OpAppend 2; OpAppend 3; OpRemove 1])))
     - Z.of_nat (length (elems
        (state_after [OpAppend 1; OpAppend 2; OpAppend 3; OpRemove 1])))
     <= n
     < Z.of_nat (length (live_handles
        (state_after [OpAppend 1; OpAppend 2; OpAppend 3; OpRemove 1]))))%Z.
Proof.
  assert (R : reachable (state_after [OpAppend 1; OpAppend 2; OpAppend 3;
                                      OpRemove 1])).
  { eapply reachable_state_after. reflexivity. }
  split; [exact R|].
  apply (X8_Len_undercounts _ R).
  - simpl. lia.
  - simpl. lia.
Defined.

(** A pass over three elements with the first two marked removes only the
    first. *)
Lemma X9_sweep_pass_witness :
  reachable (state_after [OpAppend 1; OpAppend 2; OpAppend 3;
                          OpRemoveMark 0; OpRemoveMark 1]) /\
  exists s',
    Remove 0 (state_after [OpAppend 1; OpAppend 2; OpAppend 3;
                           OpRemoveMark 0; OpRemoveMark 1]) = Ok (tt, s') /\
    sweep 3 (Some 0) true
      (state_after [OpAppend 1; OpAppend 2; OpAppend 3;
                    OpRemoveMark 0; OpRemoveMark 1]) = Ok (false, s') /\
    live_handles s' =
      tl (live_handles (state_after [OpAppend 1; OpAppend 2; OpAppend 3;
                                     OpRemoveMark 0; OpRemoveMark 1])).
Proof.
  assert (R : reachable (state_after [OpAppend 1; OpAppend 2; OpAppend 3;
                                      OpRemoveMark 0; OpRemoveMark 1])).
  { eapply reachable_state_after. reflexivity. }
  split; [exact R|].
  assert (Hf : length (elems (state_after [OpAppend 1; OpAppend 2; OpAppend 3;
                                           OpRemoveMark 0; OpRemoveMark 1]))
               <= 3) by (simpl; lia).
  apply (proj2 (proj2 (X9_sweep_pass _ 3 true R Hf)) 0); reflexivity.
Defined.

(** Append and remove again on a list of two. *)
Lemma X10_Append_then_Remove_witness :
  reachable (state_after [OpAppend 1; OpAppend 2]) /\
  exists s1 s2,
    Append 3 (state_after [OpAppend 1; OpAppend 2]) = Ok (2, s1) /\
    Remove 2 s1 = Ok (tt, s2) /\
    live_handles s2 = live_handles (state_after [OpAppend 1; OpAppend 2]).
Proof.
  assert (R : reachable (state_after [OpAppend 1; OpAppend 2])).
  { eapply reachable_state_after. reflexivity. }
  split; [exact R|].
  destruct (X10_Append_then_Remove _ 3 R)
    as (s1 & s2 & E1 & E2 & _ & _ & Hl & _).
  exists s1, s2. split; [exact E1|]. split; [exact E2|exact Hl].
Defined.


(** The second of three elements is removed, then marked, and its
    neighbours are removed. *)
Lemma X12_removed_links_frozen_witness :
  reachable (state_after [OpAppend 1; OpAppend 2; OpAppend 3; OpRemove 1]) /\
  alive (state_after [OpAppend 1; OpAppend 2; OpAppend 3; OpRemove 1;
                      OpRemoveMark 1; OpRemove 0; OpRemove 2; OpAppend 4]) 1
    = false /\
  nxt (state_after [OpAppend 1; OpAppend 2; OpAppend 3; OpRemove 1;
                    OpRemoveMark 1; OpRemove 0; OpRemove 2; OpAppend 4]) 1
    = Some 2 /\
  prv (state_after [OpAppend 1; OpAppend 2; OpAppend 3; OpRemove 1;
                    OpRemoveMark 1; OpRemove 0; OpRemove 2; OpAppend 4]) 1
    = Some 0 /\
  marked (state_after [OpAppend 1; OpAppend 2; OpAppend 3; OpRemove 1;
                       OpRemoveMark 1; OpRemove 0; OpRemove 2; OpAppend 4]) 1
    = true.
Proof.
  assert (R : reachable (state_after [OpAppend 1; OpAppend 2; OpAppend 3;
                                      OpRemove 1])).
  { eapply reachable_state_after. reflexivity. }
  split; [exact R|].
  assert (He : 1 < length (elems (state_after [OpAppend 1; OpAppend 2;
                                               OpAppend 3; OpRemove 1])))
    by (simpl; lia).
  destruct (X12_removed_links_frozen
              [OpRemoveMark 1; OpRemove 0; OpRemove 2; OpAppend 4]
              (state_after [OpAppend 1; OpAppend 2; OpAppend 3; OpRemove 1])
              (state_after [OpAppend 1; OpAppend 2; OpAppend 3; OpRemove 1;
                            OpRemoveMark 1; OpRemove 0; OpRemove 2; OpAppend 4])
              1 R He eq_refl eq_refl)
    as (Ha & Hn & Hp & _ & Hm).
  split; [exact Ha|]. split; [exact Hn|]. split; [exact Hp|].
  apply Hm. right. apply list_elem_of_here.
Defined.

(** The ends of a list of three after the first element was removed. *)
Lemma X13_head_first_tail_last_witness :
  reachable (state_after [OpAppend 1; OpAppend 2; OpAppend 3; OpRemove 0]) /\
  Head (state_after [OpAppend 1; OpAppend 2; OpAppend 3; OpRemove 0]) =
    Ok (hd_error (live_handles
          (state_after [OpAppend 1; OpAppend 2; OpAppend 3; OpRemove 0])),
        state_after [OpAppend 1; OpAppend 2; OpAppend 3; OpRemove 0]) /\
  tail (lst (state_after [OpAppend 1; OpAppend 2; OpAppend 3; OpRemove 0])) =
    last (live_handles
            (state_after [OpAppend 1; OpAppend 2; OpAppend 3; OpRemove 0])).
Proof.
  assert (R : reachable (state_after [OpAppend 1; OpAppend 2; OpAppend 3;
                                      OpRemove 0])).
  { eapply reachable_state_after. reflexivity. }
  split; [exact R|].
  apply (X13_head_first_tail_last _ R).
Defined.

(** The payload of an element read after it was marked and removed. *)
Lemma X14_Value_of_Append_witness :
  reachable (state_after [OpAppend 1]) /\
  Value 1 (state_after [OpAppend 1; OpAppend 2; OpRemoveMark 1; OpRemove 1]) =
    Ok (2, state_after [OpAppend 1; OpAppend 2; OpRemoveMark 1; OpRemove 1]).
Proof.
  assert (R : reachable (state_after [OpAppend 1])).
  { eapply reachable_state_after. reflexivity. }
  split; [exact R|].
  apply (X14_Value_of_Append (state_after [OpAppend 1]) 2 1
           (state_after [OpAppend 1; OpAppend 2])
           [OpRemoveMark 1; OpRemove 1] _ R); reflexivity.
Defined.

End tslist.
